(** * meas_multifit: the model evaluator and its Minuit objective adapter

    A shallow embedding of [ModelEvaluator] (src/ModelEvaluator.cc) and of
    the [ChisqFunction] adapter and the two Minuit fitters (the MinuitFitter
    source that follows the [grid::Frame] declaration in grid/Frame.h).

    - [multifit::Pixel] is [double]: a binary64 float, here Rocq's primitive
      [float] with its IEEE operations.
    - An [Eigen] vector is a list of pixels; an [Eigen] matrix is the list of
      its columns; an [ndarray] of shape (nParam, nPix) is the list of its
      rows, one row per parameter, which is the column of the [MatrixMap]
      taken over it.
    - Objects shared through pointers (the evaluator held by the adapter,
      the buffers the projections write into) are threaded as explicit
      state.
    - Behaviour that C++ leaves undefined or that trips an [Eigen] assertion
      (a column index out of range, a read past the end of a vector, a
      subtraction of vectors of different sizes) is [None].
    - Pixel counts and buffer offsets, [int] in the source, count pixels held
      in memory and are natural numbers here; the threshold [_nMinPix] is an
      integer. *)

From Stdlib Require Import PrimFloat ZArith.
From stdpp Require Import base decidable option list numbers strings.

Set Default Proof Using "Type".

(** ** Numeric containers *)

Abbreviation Pixel := float (only parsing).
Abbreviation Vector := (list float) (only parsing).
Abbreviation Matrix := (list (list float)) (only parsing).

(** [a.cwise() / b] *)
Definition cwiseQuotient (a b : Vector) : Vector := zip_with PrimFloat.div a b.

(** [v.cwise().sqrt()] *)
Definition cwiseSqrt (v : Vector) : Vector := PrimFloat.sqrt <$> v.

(** [a.dot(b)], accumulated from the first coefficient on. *)
Definition dot (a b : Vector) : Pixel :=
  foldl PrimFloat.add 0%float (zip_with PrimFloat.mul a b).

(** [a - b]; Eigen asserts that the two sizes agree. *)
Definition vectorDifference (a b : Vector) : option Vector :=
  if decide (length a = length b) then Some (zip_with PrimFloat.sub a b) else None.

(** [(-m).transpose() * r]: one coefficient per column of [m]. *)
Definition negTransposeTimes (m : Matrix) (r : Vector) : Vector :=
  (λ column, dot (PrimFloat.opp <$> column) r) <$> m.

(** [ndarray::allocate]: the contents are unspecified in C++; every entry is
    written before it is read, the model fills with zero. *)
Definition allocate (n : nat) : Vector := replicate n 0%float.
Definition allocate2 (rows n : nat) : Matrix := replicate rows (allocate n).

(** [VectorMap map(data, n, 1)] and [MatrixMap map(data, n, columns)] *)
Definition VectorMap (data : Vector) (n : nat) : Vector := take n data.
Definition MatrixMap (data : Matrix) (n columns : nat) : Matrix :=
  take columns (take n <$> data).

(** ** Buffer views *)

(** [ndarray::view(pixelStart, pixelEnd)]: the half-open range of a buffer
    handed to one projection. A default-constructed array is empty. *)
Record View : Type := mkView { pixelStart : nat; pixelEnd : nat }.

Definition emptyView : View := mkView 0 0.

Definition in_view (v : View) (k : nat) : Prop := pixelStart v ≤ k < pixelEnd v.

Definition disjoint_views (v w : View) : Prop := ∀ k, ¬ (in_view v k ∧ in_view w k).

(** Writing through a view: entry [k] of the range receives [f (k - pixelStart)],
    nothing outside the range is touched. *)
Definition write_view (v : View) (f : nat → Pixel) (buffer : Vector) : Vector :=
  imap (λ k old, if bool_decide (in_view v k) then f (k - pixelStart v) else old) buffer.

(** The same range of every row of a two-dimensional buffer,
    [buffer[ndarray::view()(pixelStart, pixelEnd)]]. *)
Definition write_view2 (v : View) (f : nat → nat → Pixel) (buffer : Matrix) : Matrix :=
  imap (λ i row, write_view v (f i) row) buffer.

(** ** Model, projections, exposures *)

(** The model object behind [_model]: its two parameter segments and their
    sizes ([getLinearParameterSize], [getNonlinearParameterSize]). *)
Record Model : Type := mkModel {
  linearParameterSize : nat;
  nonlinearParameterSize : nat;
  linearParameters : Vector;
  nonlinearParameters : Vector
}.

(** [ModelProjection] is an abstract class; a concrete projection is given by
    what its three virtual methods compute from the model's current
    parameters, per pixel of its footprint (and per parameter). *)
Record ProjectionKernel : Type := mkKernel {
  kernelModelImage : Model → nat → Pixel;
  kernelLinearParameterDerivative : Model → nat → nat → Pixel;
  kernelNonlinearParameterDerivative : Model → nat → nat → Pixel
}.

Record ModelProjection : Type := mkProjection {
  footprintNpix : nat;
  kernel : ProjectionKernel;
  modelImageBuffer : View;
  linearParameterDerivativeBuffer : View;
  nonlinearParameterDerivativeBuffer : View
}.

Definition setModelImageBuffer (v : View) (p : ModelProjection) : ModelProjection :=
  mkProjection (footprintNpix p) (kernel p) v
    (linearParameterDerivativeBuffer p) (nonlinearParameterDerivativeBuffer p).

Definition setLinearParameterDerivativeBuffer (v : View) (p : ModelProjection) : ModelProjection :=
  mkProjection (footprintNpix p) (kernel p) (modelImageBuffer p)
    v (nonlinearParameterDerivativeBuffer p).

Definition setNonlinearParameterDerivativeBuffer (v : View) (p : ModelProjection) : ModelProjection :=
  mkProjection (footprintNpix p) (kernel p) (modelImageBuffer p)
    (linearParameterDerivativeBuffer p) v.

(** Modelled from the spec: [ModelProjection::computeModelImage],
    [computeLinearParameterDerivative] and [computeNonlinearParameterDerivative]
    (ModelProjection.h is not part of the sources). Each "writes only within
    its assigned buffer slice": [pixelCount] intensities, respectively a
    [pixelCount] range of every parameter's row. *)
Definition projectionComputeModelImage (m : Model) (p : ModelProjection)
    (buffer : Vector) : Vector :=
  write_view (modelImageBuffer p) (kernelModelImage (kernel p) m) buffer.

Definition projectionComputeLinearParameterDerivative (m : Model) (p : ModelProjection)
    (buffer : Matrix) : Matrix :=
  write_view2 (linearParameterDerivativeBuffer p)
    (kernelLinearParameterDerivative (kernel p) m) buffer.

Definition projectionComputeNonlinearParameterDerivative (m : Model) (p : ModelProjection)
    (buffer : Matrix) : Matrix :=
  write_view2 (nonlinearParameterDerivativeBuffer p)
    (kernelNonlinearParameterDerivative (kernel p) m) buffer.

(** An exposure as the evaluator sees it: the (image, variance) pairs of the
    pixels of the clipped and masked projection footprint, in footprint
    order, and the projection [_model->makeProjection(psf, wcs, fixedFp)]
    builds for it. The footprint, PSF and WCS computations are external. *)
Record Exposure : Type := mkExposure {
  footprintPixels : list (Pixel * Pixel);
  projectionKernel : ProjectionKernel
}.

(** [fixedFp->getNpix()] *)
Definition getNpix (e : Exposure) : nat := length (footprintPixels e).

Definition makeProjection (e : Exposure) : ModelProjection :=
  mkProjection (getNpix e) (projectionKernel e) emptyView emptyView emptyView.

(** Modelled from the spec: [compressImage] (footprintUtils.h is not part of
    the sources) copies the image and variance values under the footprint
    into the two views it is given. *)
Definition compressImage (e : Exposure) (v : View) (data variance : Vector) : Vector * Vector :=
  (write_view v (λ k, default 0%float (fst <$> footprintPixels e !! k)) data,
   write_view v (λ k, default 0%float (snd <$> footprintPixels e !! k)) variance).

(** ** The evaluator *)

(** Modelled from the spec: the [ProductFlag] bits of ModelEvaluator.h, "a
    bitmask of independently-cacheable quantities". *)
Definition MODEL_IMAGE : Z := 1.
Definition LINEAR_PARAMETER_DERIVATIVE : Z := 2.
Definition NONLINEAR_PARAMETER_DERIVATIVE : Z := 4.

Record ModelEvaluator : Type := mkEvaluator {
  _nMinPix : Z;
  _model : Model;
  _projectionList : list ModelProjection;
  _validProducts : Z;
  _dataVector : Vector;
  _varianceVector : Vector;
  _modelImageBuffer : Vector;
  _linearDerivativeBuffer : Matrix;
  _nonlinearDerivativeBuffer : Matrix;
  _sigma : Vector;
  _modelImage : Vector;
  _linearDerivative : Matrix;
  _nonlinearDerivative : Matrix
}.

Definition getLinearParameterSize (ev : ModelEvaluator) : nat :=
  linearParameterSize (_model ev).
Definition getNonlinearParameterSize (ev : ModelEvaluator) : nat :=
  nonlinearParameterSize (_model ev).
Definition getLinearParameters (ev : ModelEvaluator) : Vector :=
  linearParameters (_model ev).
Definition getNonlinearParameters (ev : ModelEvaluator) : Vector :=
  nonlinearParameters (_model ev).

(** Modelled from the spec: [getNPixels] (ModelEvaluator.h), the total
    length [N] of the flattened buffers. *)
Definition getNPixels (ev : ModelEvaluator) : nat := length (_dataVector ev).

(** [_validProducts & flag] as a condition *)
Definition validProduct (ev : ModelEvaluator) (flag : Z) : bool :=
  negb (Z.land (_validProducts ev) flag =? 0)%Z.

(** *** setExposureList *)

(** The loop that creates the projections: [acc] holds [_projectionList],
    [goodExposureList] and [pixSum]. *)
Fixpoint createProjections (nMinPix : Z) (exposureList : list Exposure)
    (acc : list ModelProjection * list Exposure * nat)
    : list ModelProjection * list Exposure * nat :=
  match exposureList with
  | [] => acc
  | exposure :: rest =>
      let '(projectionList, goodExposureList, pixSum) := acc in
      if bool_decide (Z.of_nat (getNpix exposure) > nMinPix)%Z then
        createProjections nMinPix rest
          (projectionList ++ [makeProjection exposure],
           goodExposureList ++ [exposure],
           pixSum + getNpix exposure)
      else createProjections nMinPix rest acc
  end.

(** The loop that assigns the buffer ranges; the projection list and the good
    exposures are walked together. *)
Fixpoint assignBuffers (projectionList : list ModelProjection)
    (goodExposureList : list Exposure) (pixelStart : nat)
    (dataVector varianceVector : Vector)
    : list ModelProjection * Vector * Vector :=
  match projectionList, goodExposureList with
  | projection :: projections, goodExposure :: goodExposures =>
      let nPix := footprintNpix projection in
      let pixelEnd := pixelStart + nPix in
      let '(dataVector', varianceVector') :=
        compressImage goodExposure (mkView pixelStart pixelEnd) dataVector varianceVector in
      let projection' :=
        setNonlinearParameterDerivativeBuffer (mkView pixelStart pixelEnd)
          (setLinearParameterDerivativeBuffer (mkView pixelStart pixelEnd)
            (setModelImageBuffer (mkView pixelStart pixelEnd) projection)) in
      let '(projections', dataVector'', varianceVector'') :=
        assignBuffers projections goodExposures pixelEnd dataVector' varianceVector' in
      (projection' :: projections', dataVector'', varianceVector'')
  | _, _ => ([], dataVector, varianceVector)
  end.

Definition setExposureList (exposureList : list Exposure) (ev : ModelEvaluator)
    : ModelEvaluator :=
  let nLinear := getLinearParameterSize ev in
  let nNonlinear := getNonlinearParameterSize ev in
  let '(projectionList, goodExposureList, pixSum) :=
    createProjections (_nMinPix ev) exposureList ([], [], 0) in
  let '(projectionList', dataVector, varianceVector) :=
    assignBuffers projectionList goodExposureList 0 (allocate pixSum) (allocate pixSum) in
  mkEvaluator (_nMinPix ev) (_model ev) projectionList' 0
    dataVector varianceVector (allocate pixSum)
    (allocate2 nLinear pixSum) (allocate2 nNonlinear pixSum)
    (cwiseSqrt (VectorMap varianceVector (length dataVector)))
    (_modelImage ev) (_linearDerivative ev) (_nonlinearDerivative ev).

(** *** Cached products *)

Definition withModelImage (buffer modelImage : Vector) (ev : ModelEvaluator)
    : ModelEvaluator :=
  mkEvaluator (_nMinPix ev) (_model ev) (_projectionList ev)
    (Z.lor (_validProducts ev) MODEL_IMAGE)
    (_dataVector ev) (_varianceVector ev) buffer
    (_linearDerivativeBuffer ev) (_nonlinearDerivativeBuffer ev)
    (_sigma ev) modelImage (_linearDerivative ev) (_nonlinearDerivative ev).

Definition withLinearDerivative (buffer derivative : Matrix) (ev : ModelEvaluator)
    : ModelEvaluator :=
  mkEvaluator (_nMinPix ev) (_model ev) (_projectionList ev)
    (Z.lor (_validProducts ev) LINEAR_PARAMETER_DERIVATIVE)
    (_dataVector ev) (_varianceVector ev) (_modelImageBuffer ev)
    buffer (_nonlinearDerivativeBuffer ev)
    (_sigma ev) (_modelImage ev) derivative (_nonlinearDerivative ev).

Definition withNonlinearDerivative (buffer derivative : Matrix) (ev : ModelEvaluator)
    : ModelEvaluator :=
  mkEvaluator (_nMinPix ev) (_model ev) (_projectionList ev)
    (Z.lor (_validProducts ev) NONLINEAR_PARAMETER_DERIVATIVE)
    (_dataVector ev) (_varianceVector ev) (_modelImageBuffer ev)
    (_linearDerivativeBuffer ev) buffer
    (_sigma ev) (_modelImage ev) (_linearDerivative ev) derivative.

Definition computeModelImage (ev : ModelEvaluator) : ModelEvaluator * Vector :=
  if negb (validProduct ev MODEL_IMAGE) then
    let buffer :=
      foldl (λ b p, projectionComputeModelImage (_model ev) p b)
        (_modelImageBuffer ev) (_projectionList ev) in
    let modelImage := cwiseQuotient (VectorMap buffer (getNPixels ev)) (_sigma ev) in
    (withModelImage buffer modelImage ev, modelImage)
  else (ev, _modelImage ev).

(** [for (int i = first; i < first + count; ++i) m.col(i).cwise() /= sigma;]
    [col(i)] past the last column trips Eigen's index assertion. *)
Fixpoint divideColumns (sigma : Vector) (m : Matrix) (i count : nat) : option Matrix :=
  match count with
  | 0 => Some m
  | S count' =>
      column ← m !! i;
      divideColumns sigma (<[i := cwiseQuotient column sigma]> m) (S i) count'
  end.

Definition computeLinearParameterDerivative (ev : ModelEvaluator)
    : option (ModelEvaluator * Matrix) :=
  if negb (validProduct ev LINEAR_PARAMETER_DERIVATIVE) then
    let buffer :=
      foldl (λ b p, projectionComputeLinearParameterDerivative (_model ev) p b)
        (_linearDerivativeBuffer ev) (_projectionList ev) in
    let map := MatrixMap buffer (getNPixels ev) (getLinearParameterSize ev) in
    derivative ← divideColumns (_sigma ev) map 0 (getLinearParameterSize ev);
    Some (withLinearDerivative buffer derivative ev, derivative)
  else Some (ev, _linearDerivative ev).

(** The loop over the columns runs to [getLinearParameterSize()], as in the
    source. *)
Definition computeNonlinearParameterDerivative (ev : ModelEvaluator)
    : option (ModelEvaluator * Matrix) :=
  if negb (validProduct ev NONLINEAR_PARAMETER_DERIVATIVE) then
    let buffer :=
      foldl (λ b p, projectionComputeNonlinearParameterDerivative (_model ev) p b)
        (_nonlinearDerivativeBuffer ev) (_projectionList ev) in
    let map := MatrixMap buffer (getNPixels ev) (getNonlinearParameterSize ev) in
    derivative ← divideColumns (_sigma ev) map 0 (getLinearParameterSize ev);
    Some (withNonlinearDerivative buffer derivative ev, derivative)
  else Some (ev, _nonlinearDerivative ev).

(** *** Parameters and weighted data (ModelEvaluator.h) *)

Definition withModel (m : Model) (ev : ModelEvaluator) : ModelEvaluator :=
  mkEvaluator (_nMinPix ev) m (_projectionList ev) 0
    (_dataVector ev) (_varianceVector ev) (_modelImageBuffer ev)
    (_linearDerivativeBuffer ev) (_nonlinearDerivativeBuffer ev)
    (_sigma ev) (_modelImage ev) (_linearDerivative ev) (_nonlinearDerivative ev).

(** Modelled from the spec: [setLinearParameters] and [setNonlinearParameters], which take a
    pointer to doubles (ModelEvaluator.h), "copy
    caller-supplied values into evaluator-tracked parameter storage; both
    clear all three validity flags unconditionally". The pointer is the list
    of the values from it on; fewer values than the segment holds is a read
    past the end. *)
Definition setLinearParameters (parameters : Vector) (ev : ModelEvaluator)
    : option ModelEvaluator :=
  let m := _model ev in
  if decide (linearParameterSize m ≤ length parameters) then
    Some (withModel
      (mkModel (linearParameterSize m) (nonlinearParameterSize m)
         (take (linearParameterSize m) parameters) (nonlinearParameters m)) ev)
  else None.

Definition setNonlinearParameters (parameters : Vector) (ev : ModelEvaluator)
    : option ModelEvaluator :=
  let m := _model ev in
  if decide (nonlinearParameterSize m ≤ length parameters) then
    Some (withModel
      (mkModel (linearParameterSize m) (nonlinearParameterSize m)
         (linearParameters m) (take (nonlinearParameterSize m) parameters)) ev)
  else None.

(** Modelled from the spec: [getWeightedData] (ModelEvaluator.h), the data
    divided by the pixel's noise standard deviation. *)
Definition getWeightedData (ev : ModelEvaluator) : Vector :=
  cwiseQuotient (VectorMap (_dataVector ev) (getNPixels ev)) (_sigma ev).

(** ** The objective adapter *)

(** [_evaluator] is a shared pointer: the evaluator is passed to and returned
    from every operation; the adapter proper holds the flag and the copy of
    the weighted data. *)
Record ChisqFunction : Type := mkChisqFunction {
  _dirty : bool;
  _measured : Vector
}.

Definition newChisqFunction (evaluator : ModelEvaluator) : ChisqFunction :=
  mkChisqFunction true (getWeightedData evaluator).

(** One pass of either comparison loop of [checkParams]. The [return] follows
    the [if] instead of belonging to it, so the body runs for the first
    element only: [Some flag] is the flag at that [return], [None] the loop
    running zero times. *)
Definition compareSegment (size : nat) (iNew iOld : option Pixel) (dirty : bool)
    : option (option bool) :=
  match size with
  | 0 => Some None
  | S _ =>
      new ← iNew;
      old ← iOld;
      Some (Some (if negb (PrimFloat.eqb new old) then true else dirty))
  end.

Definition checkParams (params : Vector) (f : ChisqFunction) (ev : ModelEvaluator)
    : option ChisqFunction :=
  if _dirty f then Some f
  else
    first ← compareSegment (getLinearParameterSize ev)
               (params !! 0) (getLinearParameters ev !! 0) (_dirty f);
    match first with
    | Some dirty => Some (mkChisqFunction dirty (_measured f))
    | None =>
        second ← compareSegment (getNonlinearParameterSize ev)
                    (params !! 0) (getNonlinearParameters ev !! 0) (_dirty f);
        match second with
        | Some dirty => Some (mkChisqFunction dirty (_measured f))
        | None => Some (mkChisqFunction false (_measured f))
        end
    end.

(** [checkParams] with the positions of [params] at which it evaluates
    [*iNew != *iOld]: none when the guard returns, position 0 for the one
    iteration of the first loop that runs, none when both loops run zero
    times. The adapter it returns is that of [checkParams]. *)
Definition checkParamsTraced (params : Vector) (f : ChisqFunction) (ev : ModelEvaluator)
    : option (ChisqFunction * list nat) :=
  if _dirty f then Some (f, [])
  else
    first ← compareSegment (getLinearParameterSize ev)
               (params !! 0) (getLinearParameters ev !! 0) (_dirty f);
    match first with
    | Some dirty => Some (mkChisqFunction dirty (_measured f), [0])
    | None =>
        second ← compareSegment (getNonlinearParameterSize ev)
                    (params !! 0) (getNonlinearParameters ev !! 0) (_dirty f);
        match second with
        | Some dirty => Some (mkChisqFunction dirty (_measured f), [0])
        | None => Some (mkChisqFunction false (_measured f), [])
        end
    end.


(** [if (_dirty) { setLinearParameters(&params[0]);
                   setNonlinearParameters(&params[getLinearParameterSize()]); }] *)
Definition pushParams (params : Vector) (f : ChisqFunction) (ev : ModelEvaluator)
    : option ModelEvaluator :=
  if _dirty f then
    ev' ← setLinearParameters params ev;
    setNonlinearParameters (drop (getLinearParameterSize ev') params) ev'
  else Some ev.

Definition computeValue (params : Vector) (f : ChisqFunction) (ev : ModelEvaluator)
    : option (Pixel * ChisqFunction * ModelEvaluator) :=
  f' ← checkParams params f ev;
  ev1 ← pushParams params f' ev;
  let '(ev2, modeled) := computeModelImage ev1 in
  residual ← vectorDifference (_measured f') modeled;
  Some (PrimFloat.mul 0.5%float (dot residual residual), f', ev2).

(** [gradMap << a, b]: the comma initializer asserts that exactly
    [params.size()] coefficients are supplied. *)
Definition commaInitialize (size : nat) (coefficients : Vector) : option Vector :=
  if decide (length coefficients = size) then Some coefficients else None.

Definition computeGradient (params : Vector) (f : ChisqFunction) (ev : ModelEvaluator)
    : option (Vector * ChisqFunction * ModelEvaluator) :=
  f' ← checkParams params f ev;
  ev1 ← pushParams params f' ev;
  let '(ev2, modeled) := computeModelImage ev1 in
  residual ← vectorDifference (_measured f') modeled;
  '(ev3, lpd) ← computeLinearParameterDerivative ev2;
  '(ev4, npd) ← computeNonlinearParameterDerivative ev3;
  gradient ← commaInitialize (length params)
                (negTransposeTimes lpd residual ++ negTransposeTimes npd residual);
  Some (gradient, f', ev4).

(** ** The Minuit fitters *)

(** The options [apply] reads from the policy once the defaults are merged. *)
Record Policy : Type := mkPolicy {
  checkGradient : bool;
  strategy : Z;
  iterationMax : Z;
  tolerance : Pixel
}.

Inductive Exception : Type :=
| InvalidParameterException (what : string).

(** Minuit2 is an external library. Code of it that drives an [FCNBase] is a
    finite tree of calls of [operator()]; code that drives an
    [FCNGradientBase] may call [Gradient] as well. Each continuation receives
    what the call returned. *)
Inductive FcnClient (R : Type) : Type :=
| FcnReturn (r : R)
| FcnCall (params : Vector) (k : Pixel → FcnClient R).

Inductive GradientFcnClient (R : Type) : Type :=
| GradientFcnReturn (r : R)
| GradientFcnCall (params : Vector) (k : Pixel → GradientFcnClient R)
| GradientFcnGradient (params : Vector) (k : Vector → GradientFcnClient R).

Arguments FcnReturn {R} r.
Arguments FcnCall {R} params k.
Arguments GradientFcnReturn {R} r.
Arguments GradientFcnCall {R} params k.
Arguments GradientFcnGradient {R} params k.

(** What [apply] uses of Minuit2.
    - [MnMigrad_gradient checkGradient initialParams initialErrors strategy
       iterationMax tolerance]: [MnMigrad] built over a [GradientFunction] and
      called as [migrad(iterationMax, tolerance)]; [Up()] is the constant 1,
      and [CheckGradient()], the other virtual the function answers, is
      [checkGradient].
    - [MnMigrad_fcn]: the same over a [Function], which has no gradient.
    - [Numerical2PGradientCalculator initialParams initialErrors strategy
       paramVec fval]: the calculator built from [migrad.State().Trafo()] and
      [migrad.Strategy()], applied to [MinimumParameters(paramVec, fval)]
      over an [MnFcn]. *)
Record Minuit2 : Type := mkMinuit2 {
  FunctionMinimum : Type;
  MnMigrad_gradient :
    bool → Vector → Vector → Z → Z → Pixel → GradientFcnClient FunctionMinimum;
  MnMigrad_fcn :
    Vector → Vector → Z → Z → Pixel → FcnClient FunctionMinimum;
  Numerical2PGradientCalculator :
    Vector → Vector → Z → Vector → Pixel → FcnClient Vector
}.

(** [Function::operator()] and [GradientFunction::operator()] are
    [computeValue], [GradientFunction::Gradient] is [computeGradient], on the
    function's mutable [_chisqFunction]. *)
Fixpoint runFcn {R : Type} (c : FcnClient R) (f : ChisqFunction) (ev : ModelEvaluator)
    : option (R * ChisqFunction * ModelEvaluator) :=
  match c with
  | FcnReturn r => Some (r, f, ev)
  | FcnCall params k =>
      '(value, f', ev') ← computeValue params f ev;
      runFcn (k value) f' ev'
  end.

Fixpoint runGradientFcn {R : Type} (c : GradientFcnClient R) (f : ChisqFunction)
    (ev : ModelEvaluator) : option (R * ChisqFunction * ModelEvaluator) :=
  match c with
  | GradientFcnReturn r => Some (r, f, ev)
  | GradientFcnCall params k =>
      '(value, f', ev') ← computeValue params f ev;
      runGradientFcn (k value) f' ev'
  | GradientFcnGradient params k =>
      '(gradient, f', ev') ← computeGradient params f ev;
      runGradientFcn (k gradient) f' ev'
  end.

(** The parameter vectors of the calls a client makes when it is run, in the
    order of the calls. *)
Fixpoint fcnCalls {R : Type} (c : FcnClient R) (f : ChisqFunction) (ev : ModelEvaluator)
    : list (list float) :=
  match c with
  | FcnReturn _ => []
  | FcnCall params k =>
      params :: match computeValue params f ev with
                | Some (value, f', ev') => fcnCalls (k value) f' ev'
                | None => []
                end
  end.

Fixpoint gradientFcnCalls {R : Type} (c : GradientFcnClient R) (f : ChisqFunction)
    (ev : ModelEvaluator) : list (list float) :=
  match c with
  | GradientFcnReturn _ => []
  | GradientFcnCall params k =>
      params :: match computeValue params f ev with
                | Some (value, f', ev') => gradientFcnCalls (k value) f' ev'
                | None => []
                end
  | GradientFcnGradient params k =>
      params :: match computeGradient params f ev with
                | Some (gradient, f', ev') => gradientFcnCalls (k gradient) f' ev'
                | None => []
                end
  end.

(** [Result(min, evaluator->getModel())]: the model is shared with the
    evaluator, the result shows it as it is when [apply] returns. *)
Record MinuitFitterResult (minuit : Minuit2) : Type := mkResult {
  minimum : FunctionMinimum minuit;
  model : Model
}.
Arguments mkResult {minuit} minimum model.
Arguments minimum {minuit} _.
Arguments model {minuit} _.

(** How a call of [apply] ends: its result or the exception it throws, the
    evaluator it leaves behind, and the lines written to [std::cerr] (label
    and numbers). *)
Record ApplyExit (minuit : Minuit2) : Type := mkExit {
  outcome : Exception + MinuitFitterResult minuit;
  evaluatorAfter : ModelEvaluator;
  cerr : list (string * Vector)
}.
Arguments mkExit {minuit} outcome evaluatorAfter cerr.
Arguments outcome {minuit} _.
Arguments evaluatorAfter {minuit} _.
Arguments cerr {minuit} _.

(** The model of the result, when [apply] returned one. *)
Definition fittedModel {minuit : Minuit2} (exit : ApplyExit minuit) : option Model :=
  match outcome exit with
  | inr result => Some (model result)
  | inl _ => None
  end.

(** The three lines of the gradient check: element 0 is read before the loop,
    the others for [1 <= i < nParams]; the indexing is unchecked. *)
Definition gradientReport (nParams : nat) (numericGrad analyticGrad : Vector)
    : option (list (string * Vector)) :=
  let indices := 0 :: seq 1 (nParams - 1) in
  numeric ← mapM (λ i, numericGrad !! i) indices;
  analytic ← mapM (λ i, analyticGrad !! i) indices;
  Some [("numeric gradient: "%string, numeric);
        ("analytic gradient: "%string, analytic);
        ("difference: "%string, zip_with PrimFloat.div numeric analytic)].

Definition lengthMismatch : Exception :=
  InvalidParameterException
    "Number of model parameters not equal to length of error vector".

Definition MinuitAnalyticFitter_apply (minuit : Minuit2) (_policy : Policy)
    (evaluator : ModelEvaluator) (initialErrors : Vector)
    : option (ApplyExit minuit) :=
  let checkGradient := checkGradient _policy in
  let function := newChisqFunction evaluator in
  let nParams := getLinearParameterSize evaluator + getNonlinearParameterSize evaluator in
  if decide (nParams ≠ length initialErrors) then
    Some (mkExit (inl lengthMismatch) evaluator [])
  else
    initialParams ← commaInitialize nParams
                       (getLinearParameters evaluator ++ getNonlinearParameters evaluator);
    let migrad :=
      MnMigrad_gradient minuit checkGradient initialParams initialErrors (strategy _policy) in
    '(function', evaluator', lines) ←
      (if checkGradient then
         '(fval, f1, ev1) ← computeValue initialParams function evaluator;
         '(numericGrad, f2, ev2) ←
            runFcn (Numerical2PGradientCalculator minuit initialParams initialErrors
                      (strategy _policy) initialParams fval) f1 ev1;
         '(analyticGrad, f3, ev3) ← computeGradient initialParams f2 ev2;
         lines ← gradientReport nParams numericGrad analyticGrad;
         Some (f3, ev3, lines)
       else Some (function, evaluator, []));
    '(min, _, evaluator'') ←
      runGradientFcn (migrad (iterationMax _policy) (tolerance _policy)) function' evaluator';
    Some (mkExit (inr (mkResult min (_model evaluator''))) evaluator'' lines).

Definition MinuitNumericFitter_apply (minuit : Minuit2) (_policy : Policy)
    (evaluator : ModelEvaluator) (initialErrors : Vector)
    : option (ApplyExit minuit) :=
  let function := newChisqFunction evaluator in
  let nParams := getLinearParameterSize evaluator + getNonlinearParameterSize evaluator in
  if decide (nParams ≠ length initialErrors) then
    Some (mkExit (inl lengthMismatch) evaluator [])
  else
    initialParams ← commaInitialize nParams
                       (getLinearParameters evaluator ++ getNonlinearParameters evaluator);
    let migrad := MnMigrad_fcn minuit initialParams initialErrors (strategy _policy) in
    '(min, _, evaluator') ←
      runFcn (migrad (iterationMax _policy) (tolerance _policy)) function evaluator;
    Some (mkExit (inr (mkResult min (_model evaluator'))) evaluator' []).

(** ** Reference quantities

    What the cached products and the objective are for a given model state,
    written from the projections' kernels alone: no buffer, flag or earlier
    parameter value enters these definitions. *)

Definition totalNpix (projections : list ModelProjection) : nat :=
  sum_list_with footprintNpix projections.

Definition rawModelImage (m : Model) (projections : list ModelProjection) : Vector :=
  projections ≫= λ p, kernelModelImage (kernel p) m <$> seq 0 (footprintNpix p).

Definition rawLinearDerivative (m : Model) (projections : list ModelProjection) : Matrix :=
  (λ i, projections ≫= λ p,
     kernelLinearParameterDerivative (kernel p) m i <$> seq 0 (footprintNpix p))
  <$> seq 0 (linearParameterSize m).

Definition rawNonlinearDerivative (m : Model) (projections : list ModelProjection) : Matrix :=
  (λ i, projections ≫= λ p,
     kernelNonlinearParameterDerivative (kernel p) m i <$> seq 0 (footprintNpix p))
  <$> seq 0 (nonlinearParameterSize m).

(** Columns [0 .. count - 1] divided by [sigma], the others left as they are. *)
Definition divideFirstColumns (sigma : Vector) (count : nat) (m : Matrix) : Matrix :=
  imap (λ i column, if bool_decide (i < count) then cwiseQuotient column sigma else column) m.

Definition modelImageAt (m : Model) (projections : list ModelProjection) (sigma : Vector)
    : Vector :=
  cwiseQuotient (rawModelImage m projections) sigma.

Definition linearDerivativeAt (m : Model) (projections : list ModelProjection)
    (sigma : Vector) : Matrix :=
  (λ column, cwiseQuotient column sigma) <$> rawLinearDerivative m projections.

(** As the evaluator computes it: the first [linearParameterSize] columns
    divided, defined when there are that many columns. *)
Definition nonlinearDerivativeAt (m : Model) (projections : list ModelProjection)
    (sigma : Vector) : option Matrix :=
  if decide (linearParameterSize m ≤ nonlinearParameterSize m) then
    Some (divideFirstColumns sigma (linearParameterSize m)
            (rawNonlinearDerivative m projections))
  else None.

(** The model after [params] was pushed into it. *)
Definition pushedModel (params : Vector) (m : Model) : Model :=
  mkModel (linearParameterSize m) (nonlinearParameterSize m)
    (take (linearParameterSize m) params)
    (take (nonlinearParameterSize m) (drop (linearParameterSize m) params)).

Definition valueAt (m : Model) (projections : list ModelProjection) (sigma measured : Vector)
    : option Pixel :=
  residual ← vectorDifference measured (modelImageAt m projections sigma);
  Some (PrimFloat.mul 0.5%float (dot residual residual)).

Definition gradientAt (m : Model) (projections : list ModelProjection)
    (sigma measured : Vector) : option Vector :=
  residual ← vectorDifference measured (modelImageAt m projections sigma);
  npd ← nonlinearDerivativeAt m projections sigma;
  Some (negTransposeTimes (linearDerivativeAt m projections sigma) residual
        ++ negTransposeTimes npd residual).

(** The evaluator after the adapter pushed [params] and asked for the model
    image, respectively for all three products. *)
Definition evaluatorAfterPush (params : Vector) (ev : ModelEvaluator) : ModelEvaluator :=
  withModel (pushedModel params (_model ev)) ev.

Definition evaluatorAfterModelImage (ev : ModelEvaluator) : ModelEvaluator :=
  withModelImage (rawModelImage (_model ev) (_projectionList ev))
    (modelImageAt (_model ev) (_projectionList ev) (_sigma ev)) ev.

Definition evaluatorAfterLinearDerivative (ev : ModelEvaluator) : ModelEvaluator :=
  withLinearDerivative (rawLinearDerivative (_model ev) (_projectionList ev))
    (linearDerivativeAt (_model ev) (_projectionList ev) (_sigma ev)) ev.

Definition evaluatorAfterNonlinearDerivative (ev : ModelEvaluator) : ModelEvaluator :=
  withNonlinearDerivative (rawNonlinearDerivative (_model ev) (_projectionList ev))
    (default [] (nonlinearDerivativeAt (_model ev) (_projectionList ev) (_sigma ev))) ev.

Definition evaluatorAfterValue (params : Vector) (ev : ModelEvaluator) : ModelEvaluator :=
  evaluatorAfterModelImage (evaluatorAfterPush params ev).

Definition evaluatorAfterGradient (params : Vector) (ev : ModelEvaluator) : ModelEvaluator :=
  evaluatorAfterNonlinearDerivative
    (evaluatorAfterLinearDerivative (evaluatorAfterValue params ev)).

(** ** The state [setExposureList] leaves behind *)

Definition viewsAt (start : nat) (p : ModelProjection) : Prop :=
  modelImageBuffer p = mkView start (start + footprintNpix p)
  ∧ linearParameterDerivativeBuffer p = mkView start (start + footprintNpix p)
  ∧ nonlinearParameterDerivativeBuffer p = mkView start (start + footprintNpix p).

(** Every projection's range starts where the one before it ended. *)
Fixpoint contiguousFrom (start : nat) (projections : list ModelProjection) : Prop :=
  match projections with
  | [] => True
  | p :: rest => viewsAt start p ∧ contiguousFrom (start + footprintNpix p) rest
  end.

(** The same for the ranges held in one buffer, selected by [view]. *)
Fixpoint spansFrom (view : ModelProjection → View) (start : nat)
    (projections : list ModelProjection) : Prop :=
  match projections with
  | [] => True
  | p :: rest =>
      view p = mkView start (start + footprintNpix p)
      ∧ spansFrom view (start + footprintNpix p) rest
  end.

Definition consistentModel (m : Model) : Prop :=
  length (linearParameters m) = linearParameterSize m
  ∧ length (nonlinearParameters m) = nonlinearParameterSize m.

Record initialized (ev : ModelEvaluator) : Prop := mkInitialized {
  init_model : consistentModel (_model ev);
  init_views : contiguousFrom 0 (_projectionList ev);
  init_data : length (_dataVector ev) = totalNpix (_projectionList ev);
  init_sigma : length (_sigma ev) = totalNpix (_projectionList ev);
  init_modelImageBuffer : length (_modelImageBuffer ev) = totalNpix (_projectionList ev);
  init_linearRows : length (_linearDerivativeBuffer ev) = getLinearParameterSize ev;
  init_linearRow :
    Forall (λ row, length row = totalNpix (_projectionList ev)) (_linearDerivativeBuffer ev);
  init_nonlinearRows :
    length (_nonlinearDerivativeBuffer ev) = getNonlinearParameterSize ev;
  init_nonlinearRow :
    Forall (λ row, length row = totalNpix (_projectionList ev)) (_nonlinearDerivativeBuffer ev)
}.

(** Two evaluator states over the same frame set and model: they may differ
    in flags, buffers and cached products. *)
Definition sameFrames (ev ev' : ModelEvaluator) : Prop :=
  _model ev' = _model ev
  ∧ _projectionList ev' = _projectionList ev
  ∧ _sigma ev' = _sigma ev.

(** Two evaluator states over the same frame set and a model of the same
    dimensions; the parameter values may differ as well. *)
Definition sameSetup (ev ev' : ModelEvaluator) : Prop :=
  _projectionList ev' = _projectionList ev
  ∧ _sigma ev' = _sigma ev
  ∧ linearParameterSize (_model ev') = linearParameterSize (_model ev)
  ∧ nonlinearParameterSize (_model ev') = nonlinearParameterSize (_model ev).

(** The model after the last of [calls] was pushed into it, the model itself
    when there was no call. *)
Definition modelAfterCalls (calls : list (list float)) (m : Model) : Model :=
  from_option (λ params, pushedModel params m) m (last calls).

(** The same data, variance and threshold. *)
Definition sameData (ev ev' : ModelEvaluator) : Prop :=
  _dataVector ev' = _dataVector ev
  ∧ _varianceVector ev' = _varianceVector ev
  ∧ _nMinPix ev' = _nMinPix ev.

(** [ev'] has the derivative buffers and cached derivative matrices of [ev],
    and no derivative flag that [ev] has not. *)
Definition derivativesUntouched (ev ev' : ModelEvaluator) : Prop :=
  _linearDerivativeBuffer ev' = _linearDerivativeBuffer ev
  ∧ _nonlinearDerivativeBuffer ev' = _nonlinearDerivativeBuffer ev
  ∧ _linearDerivative ev' = _linearDerivative ev
  ∧ _nonlinearDerivative ev' = _nonlinearDerivative ev
  ∧ (validProduct ev' LINEAR_PARAMETER_DERIVATIVE = true →
     validProduct ev LINEAR_PARAMETER_DERIVATIVE = true)
  ∧ (validProduct ev' NONLINEAR_PARAMETER_DERIVATIVE = true →
     validProduct ev NONLINEAR_PARAMETER_DERIVATIVE = true).

(** The acceptance test of the loop that creates the projections. *)
Definition aboveThreshold (nMinPix : Z) (e : Exposure) : Prop :=
  (Z.of_nat (getNpix e) > nMinPix)%Z.

#[export] Instance aboveThreshold_dec nMinPix e : Decision (aboveThreshold nMinPix e).
Proof. unfold aboveThreshold. apply _. Defined.

(** ** Concrete instances *)

Module Sample.

(** A projection whose intensity at pixel [k] is [a * (k + 1) + b], for the
    first linear parameter [a] and the first nonlinear parameter [b]. Its
    linear derivative is [k + 1] in every column; its nonlinear derivative is
    8 everywhere, so that a column divided by sigma = 2 is told from one that
    is not. *)
Definition ramp (k : nat) : Pixel := Nat.iter (S k) (PrimFloat.add 1%float) 0%float.

Definition first (v : Vector) : Pixel := default 0%float (v !! 0).

Definition kern : ProjectionKernel :=
  mkKernel
    (λ m k, PrimFloat.add (PrimFloat.mul (first (linearParameters m)) (ramp k))
              (first (nonlinearParameters m)))
    (λ m i k, ramp k)
    (λ m i k, 8%float).

(** Five pixels and three pixels, every variance 4, so every sigma 2. *)
Definition frameA : Exposure :=
  mkExposure [(2, 4); (4, 4); (6, 4); (8, 4); (10, 4)]%float kern.
Definition frameB : Exposure :=
  mkExposure [(1, 4); (3, 4); (5, 4)]%float kern.
(** Two pixels: at the threshold 2. *)
Definition frameC : Exposure :=
  mkExposure [(7, 4); (9, 4)]%float kern.

(** Three pixels as [frameB], other image values. *)
Definition frameD : Exposure :=
  mkExposure [(10, 4); (20, 4); (30, 4)]%float kern.

Definition blank (m : Model) : ModelEvaluator :=
  mkEvaluator 2 m [] 0 [] [] [] [] [] [] [] [] [].

(** nLinear = 1, nNonlinear = 1 *)
Definition model11 : Model := mkModel 1 1 [1%float] [0.5%float].
Definition evaluator11 : ModelEvaluator :=
  setExposureList [frameA; frameC; frameB] (blank model11).

(** nLinear = 1, nNonlinear = 2 *)
Definition model12 : Model := mkModel 1 2 [1%float] [0.5%float; 0.25%float].
Definition evaluator12 : ModelEvaluator :=
  setExposureList [frameB] (blank model12).

(** nLinear = 2, nNonlinear = 1 *)
Definition model21 : Model := mkModel 2 1 [1%float; 2%float] [0.5%float].
Definition evaluator21 : ModelEvaluator :=
  setExposureList [frameB] (blank model21).

(** A minimizer that asks for the value and the gradient at the initial
    point and reports them; it does not look at [CheckGradient()]. *)
Definition probe (initialParams : Vector) : GradientFcnClient (Pixel * Vector) :=
  GradientFcnCall initialParams (λ value,
    GradientFcnGradient initialParams (λ gradient,
      GradientFcnReturn (value, gradient))).

(** A two-point difference along the first parameter. *)
Definition twoPoint (paramVec : Vector) (fval : Pixel) : FcnClient Vector :=
  let shifted := <[0 := PrimFloat.add (first paramVec) 1%float]> paramVec in
  FcnCall shifted (λ value,
    FcnReturn (replicate (length paramVec) (PrimFloat.sub value fval))).

Definition minuit : Minuit2 :=
  mkMinuit2 (Pixel * Vector)
    (λ _ initialParams _ _ _ _, probe initialParams)
    (λ initialParams _ _ _ _,
       FcnCall initialParams (λ value, FcnReturn (value, [])))
    (λ _ _ _ paramVec fval, twoPoint paramVec fval).


Definition policy (checkGradient : bool) : Policy :=
  mkPolicy checkGradient 1 100 0.125%float.

(** A frame set with nothing above the threshold: [frameC] alone. *)
Definition evaluatorNoFrame : ModelEvaluator :=
  setExposureList [frameC] (blank model11).

(** A model without parameters. *)
Definition model00 : Model := mkModel 0 0 [] [].
Definition evaluator00 : ModelEvaluator :=
  setExposureList [frameB] (blank model00).

(** A minimizer over an [FCNBase] that evaluates the initial point and a
    second point. *)
Definition twoCalls (initialParams : Vector) : FcnClient Pixel :=
  FcnCall initialParams (λ _,
    FcnCall ((λ x, PrimFloat.add x 1%float) <$> initialParams) (λ value,
      FcnReturn value)).

Definition numericMinuit : Minuit2 :=
  mkMinuit2 Pixel
    (λ _ initialParams _ _ _ _, GradientFcnReturn 0%float)
    (λ initialParams _ _ _ _, twoCalls initialParams)
    (λ _ _ _ paramVec _, FcnReturn paramVec).

End Sample.

(** * Properties *)

(** ** Views and writes through them *)

Lemma length_write_view v f buffer : length (write_view v f buffer) = length buffer.
Proof. unfold write_view. apply length_imap. Qed.

Lemma length_write_view2 v f buffer : length (write_view2 v f buffer) = length buffer.
Proof. unfold write_view2. apply length_imap. Qed.

Lemma lookup_write_view v f (buffer : Vector) k :
  write_view v f buffer !! k
  = (λ old, if bool_decide (in_view v k) then f (k - pixelStart v) else old) <$> buffer !! k.
Proof. unfold write_view. apply list_lookup_imap. Qed.

(** A write through the range [start, start + n) of a buffer that holds it. *)
Lemma write_view_span start n f (buffer : Vector) :
  start + n ≤ length buffer →
  write_view (mkView start (start + n)) f buffer
  = take start buffer ++ (f <$> seq 0 n) ++ drop (start + n) buffer.
Proof.
  intros Hlen. apply list_eq. intros k.
  rewrite lookup_write_view. unfold in_view. simpl.
  destruct (decide (k < start)) as [Hlt|Hge].
  - rewrite lookup_app_l by (rewrite length_take; lia).
    rewrite lookup_take_lt by done.
    destruct (buffer !! k); simpl; [|done].
    rewrite bool_decide_eq_false_2 by lia. done.
  - rewrite lookup_app_r by (rewrite length_take; lia).
    rewrite length_take_le by lia.
    destruct (decide (k < start + n)) as [Hin|Hout].
    + rewrite lookup_app_l by (rewrite length_fmap, length_seq; lia).
      rewrite list_lookup_fmap, lookup_seq_lt by lia.
      destruct (lookup_lt_is_Some_2 buffer k) as [old ->]; [lia|]. simpl.
      rewrite bool_decide_eq_true_2 by lia. done.
    + rewrite lookup_app_r by (rewrite length_fmap, length_seq; lia).
      rewrite length_fmap, length_seq, lookup_drop.
      replace (start + n + (k - start - n)) with k by lia.
      destruct (buffer !! k); simpl; [|done].
      rewrite bool_decide_eq_false_2 by lia. done.
Qed.

Lemma totalNpix_cons p rest : totalNpix (p :: rest) = footprintNpix p + totalNpix rest.
Proof. done. Qed.

Lemma totalNpix_app ps qs : totalNpix (ps ++ qs) = totalNpix ps + totalNpix qs.
Proof. apply sum_list_with_app. Qed.

Section spans.
(** The ranges a list of projections holds in one of the buffers, and what
    each of them writes there. *)
Context (view : ModelProjection → View) (values : ModelProjection → nat → Pixel).

Lemma length_foldl_write (projections : list ModelProjection) (buffer : Vector) :
  length (foldl (λ b p, write_view (view p) (values p) b) buffer projections)
  = length buffer.
Proof.
  revert buffer. induction projections as [|p rest IH]; intros buffer; simpl; [done|].
  rewrite IH. apply length_write_view.
Qed.

Lemma length_bind_values (projections : list ModelProjection) :
  length (projections ≫= λ p, values p <$> seq 0 (footprintNpix p))
  = totalNpix projections.
Proof.
  induction projections as [|p rest IH]; [done|].
  rewrite bind_cons, length_app, length_fmap, length_seq, IH, totalNpix_cons. done.
Qed.

(** Contiguous ranges written one after the other fill the stretch they
    span with the projections' values, in order. *)
Lemma foldl_write_span (projections : list ModelProjection) start (buffer : Vector) :
  spansFrom view start projections →
  start + totalNpix projections ≤ length buffer →
  foldl (λ b p, write_view (view p) (values p) b) buffer projections
  = take start buffer
    ++ (projections ≫= λ p, values p <$> seq 0 (footprintNpix p))
    ++ drop (start + totalNpix projections) buffer.
Proof.
  revert start buffer.
  induction projections as [|p rest IH]; intros start buffer Hspan Hlen.
  - unfold totalNpix. simpl. rewrite Nat.add_0_r. symmetry. apply take_drop.
  - destruct Hspan as [Hview Hrest].
    rewrite totalNpix_cons in Hlen |- *.
    simpl foldl. rewrite Hview.
    rewrite (IH (start + footprintNpix p)); [|done|rewrite length_write_view; lia].
    rewrite write_view_span by lia.
    rewrite bind_cons.
    set (vals := values p <$> seq 0 (footprintNpix p)).
    assert (length (take start buffer ++ vals) = start + footprintNpix p) as Hpre.
    { rewrite length_app, length_take_le by lia.
      unfold vals. rewrite length_fmap, length_seq. done. }
    rewrite (assoc_L (++) (take start buffer) vals).
    rewrite take_app_length' by done.
    rewrite drop_app_ge by lia.
    rewrite Hpre.
    rewrite drop_drop.
    replace (start + footprintNpix p
             + (start + footprintNpix p + totalNpix rest - (start + footprintNpix p)))
      with (start + (footprintNpix p + totalNpix rest)) by lia.
    rewrite <- !(assoc_L (++)). done.
Qed.

Lemma foldl_write_all (projections : list ModelProjection) (buffer : Vector) :
  spansFrom view 0 projections →
  length buffer = totalNpix projections →
  foldl (λ b p, write_view (view p) (values p) b) buffer projections
  = projections ≫= λ p, values p <$> seq 0 (footprintNpix p).
Proof.
  intros Hspan Hlen. rewrite (foldl_write_span _ 0) by (done || lia).
  simpl. rewrite drop_ge by lia. apply app_nil_r.
Qed.
End spans.

(** ** setExposureList *)

Lemma createProjections_filter nMinPix exposureList projections good pixSum :
  createProjections nMinPix exposureList (projections, good, pixSum)
  = (projections ++ (makeProjection <$> filter (aboveThreshold nMinPix) exposureList),
     good ++ filter (aboveThreshold nMinPix) exposureList,
     pixSum + sum_list_with getNpix (filter (aboveThreshold nMinPix) exposureList)).
Proof.
  revert projections good pixSum.
  induction exposureList as [|e rest IH]; intros projections good pixSum; simpl.
  - rewrite !app_nil_r, Nat.add_0_r. done.
  - rewrite filter_cons. fold (aboveThreshold nMinPix e).
    destruct (decide (aboveThreshold nMinPix e)) as [Hyes|Hno].
    + rewrite bool_decide_eq_true_2 by done. rewrite IH.
      rewrite fmap_cons, <- !(assoc_L (++)). simpl. f_equal. lia.
    + rewrite bool_decide_eq_false_2 by done. apply IH.
Qed.

Lemma fmap_lookup_all {A B} (g : A → B) (d : B) (l : list A) :
  (λ k, default d (g <$> l !! k)) <$> seq 0 (length l) = g <$> l.
Proof.
  apply list_eq. intros k. rewrite !list_lookup_fmap.
  destruct (decide (k < length l)) as [Hlt|Hge].
  - rewrite lookup_seq_lt by done. simpl.
    destruct (lookup_lt_is_Some_2 l k Hlt) as [x ->]. done.
  - rewrite (lookup_ge_None_2 l) by lia.
    rewrite (lookup_ge_None_2 (seq 0 (length l))) by (rewrite length_seq; lia). done.
Qed.

(** One more stretch appended to a buffer already filled up to [start]. *)
Lemma span_step {A} start (buffer vals rest : list A) :
  start + length vals + length rest ≤ length buffer →
  take (start + length vals)
    (take start buffer ++ vals ++ drop (start + length vals) buffer)
  ++ rest
  ++ drop (start + length vals + length rest)
       (take start buffer ++ vals ++ drop (start + length vals) buffer)
  = take start buffer ++ (vals ++ rest)
    ++ drop (start + (length vals + length rest)) buffer.
Proof.
  intros Hlen.
  assert (length (take start buffer ++ vals) = start + length vals) as Hpre.
  { rewrite length_app, length_take_le by lia. done. }
  rewrite (assoc_L (++) (take start buffer) vals).
  rewrite take_app_length' by done.
  rewrite drop_app_ge by lia.
  rewrite Hpre, drop_drop.
  replace (start + length vals + (start + length vals + length rest - (start + length vals)))
    with (start + (length vals + length rest)) by lia.
  rewrite <- !(assoc_L (++)). done.
Qed.

Lemma assignBuffers_spec good start (data variance : Vector) :
  start + sum_list_with getNpix good ≤ length data →
  start + sum_list_with getNpix good ≤ length variance →
  ∃ projections,
    assignBuffers (makeProjection <$> good) good start data variance
    = (projections,
       take start data ++ (good ≫= λ e, (footprintPixels e).*1)
         ++ drop (start + sum_list_with getNpix good) data,
       take start variance ++ (good ≫= λ e, (footprintPixels e).*2)
         ++ drop (start + sum_list_with getNpix good) variance)
    ∧ contiguousFrom start projections
    ∧ footprintNpix <$> projections = getNpix <$> good
    ∧ kernel <$> projections = projectionKernel <$> good.
Proof.
  revert start data variance.
  induction good as [|e rest IH]; intros start data variance Hd Hv.
  - exists []. simpl in *. rewrite !Nat.add_0_r, !take_drop. done.
  - simpl in Hd, Hv. rewrite fmap_cons. simpl assignBuffers.
    rewrite !write_view_span by (unfold getNpix in *; lia).
    change (seq 0 (getNpix e)) with (seq 0 (length (footprintPixels e))).
    rewrite !fmap_lookup_all.
    set (data' := take start data ++ _ ++ _).
    set (variance' := take start variance ++ _ ++ _).
    destruct (IH (start + getNpix e) data' variance') as (ps & Heq & Hcont & Hn & Hk).
    { unfold data'. rewrite !length_app, length_take_le, length_fmap, length_drop by lia.
      unfold getNpix in *. lia. }
    { unfold variance'. rewrite !length_app, length_take_le, length_fmap, length_drop by lia.
      unfold getNpix in *. lia. }
    rewrite Heq. eexists. split; [|split; [|split]].
    + f_equal; [f_equal|].
      * unfold data'. rewrite bind_cons.
        assert (getNpix e = length ((footprintPixels e).*1)) as He
          by (rewrite length_fmap; done).
        assert (sum_list_with getNpix rest
                = length (rest ≫= λ e0, (footprintPixels e0).*1)) as Hr.
        { clear. induction rest as [|x r IHr]; [done|].
          rewrite bind_cons, length_app, length_fmap, <- IHr. done. }
        simpl sum_list_with. rewrite He, Hr. apply span_step.
        rewrite <- He, <- Hr. lia.
      * unfold variance'. rewrite bind_cons.
        assert (getNpix e = length ((footprintPixels e).*2)) as He
          by (rewrite length_fmap; done).
        assert (sum_list_with getNpix rest
                = length (rest ≫= λ e0, (footprintPixels e0).*2)) as Hr.
        { clear. induction rest as [|x r IHr]; [done|].
          rewrite bind_cons, length_app, length_fmap, <- IHr. done. }
        simpl sum_list_with. rewrite He, Hr. apply span_step.
        rewrite <- He, <- Hr. lia.
    + simpl. split; [done|]. exact Hcont.
    + rewrite !fmap_cons, Hn. done.
    + rewrite !fmap_cons, Hk. done.
Qed.

Lemma totalNpix_fmap projections good :
  footprintNpix <$> projections = getNpix <$> good →
  totalNpix projections = sum_list_with getNpix good.
Proof.
  revert good. induction projections as [|p ps IH]; intros [|e es] Heq; try done.
  rewrite !fmap_cons in Heq. injection Heq as Hp Hrest.
  rewrite totalNpix_cons. simpl. rewrite Hp, (IH es) by done. done.
Qed.

(** [setExposureList] in closed form. *)
Lemma setExposureList_spec exposureList ev :
  let good := filter (aboveThreshold (_nMinPix ev)) exposureList in
  let pixSum := sum_list_with getNpix good in
  ∃ projections,
    setExposureList exposureList ev
    = mkEvaluator (_nMinPix ev) (_model ev) projections 0
        (good ≫= λ e, (footprintPixels e).*1)
        (good ≫= λ e, (footprintPixels e).*2)
        (allocate pixSum)
        (allocate2 (getLinearParameterSize ev) pixSum)
        (allocate2 (getNonlinearParameterSize ev) pixSum)
        (cwiseSqrt (good ≫= λ e, (footprintPixels e).*2))
        (_modelImage ev) (_linearDerivative ev) (_nonlinearDerivative ev)
    ∧ contiguousFrom 0 projections
    ∧ footprintNpix <$> projections = getNpix <$> good
    ∧ kernel <$> projections = projectionKernel <$> good.
Proof.
  intros good pixSum. unfold setExposureList.
  rewrite createProjections_filter. simpl. fold good. fold pixSum.
  destruct (assignBuffers_spec good 0 (allocate pixSum) (allocate pixSum))
    as (ps & Heq & Hcont & Hn & Hk).
  { unfold allocate. rewrite length_replicate. done. }
  { unfold allocate. rewrite length_replicate. done. }
  rewrite Heq. exists ps. split; [|done].
  assert (∀ g : Pixel * Pixel → Pixel,
            length (good ≫= λ e, g <$> footprintPixels e) = pixSum) as Hlen.
  { intros g. unfold pixSum. clear. induction good as [|x r IHr]; [done|].
    rewrite bind_cons, length_app, length_fmap, IHr. done. }
  simpl. fold pixSum.
  rewrite !drop_ge by (unfold allocate; rewrite length_replicate; lia).
  rewrite !app_nil_r. unfold VectorMap. rewrite take_ge by (rewrite !Hlen; done).
  done.
Qed.

(** C4. During frame-set assignment a frame is accepted exactly when its
    pixel count is strictly greater than the threshold: the good exposures
    are the exposures above [_nMinPix], in order, and the projection list,
    the data and variance buffers and the pixel sum are built from them
    alone. A frame whose count equals the threshold is left out, a frame one
    pixel above it is kept. *)
Theorem setExposureList_accepts_above_threshold
    (exposureList : list Exposure) (ev : ModelEvaluator) :
  let good := filter (aboveThreshold (_nMinPix ev)) exposureList in
  let ev' := setExposureList exposureList ev in
  (∀ e, e ∈ good ↔ e ∈ exposureList ∧ (Z.of_nat (getNpix e) > _nMinPix ev)%Z)
  ∧ (∀ e, Z.of_nat (getNpix e) = _nMinPix ev → e ∉ good)
  ∧ (∀ e, e ∈ exposureList → Z.of_nat (getNpix e) = (_nMinPix ev + 1)%Z → e ∈ good)
  ∧ createProjections (_nMinPix ev) exposureList ([], [], 0)
    = (makeProjection <$> good, good, sum_list_with getNpix good)
  ∧ footprintNpix <$> _projectionList ev' = getNpix <$> good
  ∧ kernel <$> _projectionList ev' = projectionKernel <$> good
  ∧ _dataVector ev' = (good ≫= λ e, (footprintPixels e).*1)
  ∧ _varianceVector ev' = (good ≫= λ e, (footprintPixels e).*2)
  ∧ getNPixels ev' = sum_list_with getNpix good.
Proof.
  intros good ev'.
  destruct (setExposureList_spec exposureList ev) as (ps & Heq & Hcont & Hn & Hk).
  fold good in Heq, Hn, Hk. fold ev' in Heq.
  assert (∀ e, e ∈ good ↔ e ∈ exposureList ∧ (Z.of_nat (getNpix e) > _nMinPix ev)%Z)
    as Hmem.
  { intros e. unfold good. rewrite list_elem_of_filter. unfold aboveThreshold. tauto. }
  split; [exact Hmem|].
  split; [intros e He Hin; apply Hmem in Hin; lia|].
  split; [intros e Hin He; apply Hmem; split; [done|lia]|].
  split; [rewrite createProjections_filter; done|].
  unfold getNPixels. rewrite Heq. simpl.
  do 4 (split; [done|]).
  clear. induction good as [|x r IHr]; [done|].
  rewrite bind_cons, length_app, length_fmap, IHr. done.
Qed.

(** *** Geometry of contiguous ranges *)

Lemma contiguousFrom_within start projections p :
  contiguousFrom start projections → p ∈ projections →
  start ≤ pixelStart (modelImageBuffer p)
  ∧ pixelEnd (modelImageBuffer p) ≤ start + totalNpix projections.
Proof.
  revert start. induction projections as [|q rest IH]; intros start Hcont Hin.
  - by apply elem_of_nil in Hin.
  - destruct Hcont as [(Hview & _ & _) Hrest]. rewrite totalNpix_cons.
    apply elem_of_cons in Hin as [->|Hin].
    + rewrite Hview. simpl. lia.
    + destruct (IH _ Hrest Hin). lia.
Qed.

Lemma contiguousFrom_cover start projections k :
  contiguousFrom start projections →
  start ≤ k < start + totalNpix projections
  ↔ ∃ p, p ∈ projections ∧ in_view (modelImageBuffer p) k.
Proof.
  revert start. induction projections as [|q rest IH]; intros start Hcont.
  - unfold totalNpix. simpl. split; [lia|]. intros (p & Hin & _).
    by apply elem_of_nil in Hin.
  - destruct Hcont as [(Hview & _ & _) Hrest]. rewrite totalNpix_cons. split.
    + intros Hk. destruct (decide (k < start + footprintNpix q)) as [Hq|Hq].
      * exists q. split; [left|]. rewrite Hview. unfold in_view. simpl. lia.
      * destruct (proj1 (IH _ Hrest)) as (p & Hin & Hp); [lia|].
        exists p. split; [by right|done].
    + intros (p & Hin & Hp). apply elem_of_cons in Hin as [->|Hin].
      * rewrite Hview in Hp. unfold in_view in Hp. simpl in Hp. lia.
      * destruct (contiguousFrom_within _ _ _ Hrest Hin). unfold in_view in Hp. lia.
Qed.

Lemma contiguousFrom_disjoint start projections i j p q :
  contiguousFrom start projections → i ≠ j →
  projections !! i = Some p → projections !! j = Some q →
  disjoint_views (modelImageBuffer p) (modelImageBuffer q).
Proof.
  revert start i j. induction projections as [|r rest IH]; intros start i j Hcont Hij Hi Hj.
  - done.
  - destruct Hcont as [(Hview & _ & _) Hrest].
    destruct i as [|i], j as [|j]; simpl in Hi, Hj; [done| | |].
    + injection Hi as <-. apply list_elem_of_lookup_2 in Hj.
      destruct (contiguousFrom_within _ _ _ Hrest Hj) as [Hlo _].
      intros k [Hp Hq]. rewrite Hview in Hp. unfold in_view in *. simpl in Hp. lia.
    + injection Hj as <-. apply list_elem_of_lookup_2 in Hi.
      destruct (contiguousFrom_within _ _ _ Hrest Hi) as [Hlo _].
      intros k [Hp Hq]. rewrite Hview in Hq. unfold in_view in *. simpl in Hq. lia.
    + apply (IH _ i j Hrest); [congruence|done|done].
Qed.

Lemma contiguousFrom_next start projections i p q :
  contiguousFrom start projections →
  projections !! i = Some p → projections !! S i = Some q →
  pixelStart (modelImageBuffer q) = pixelEnd (modelImageBuffer p).
Proof.
  revert start i. induction projections as [|r rest IH]; intros start i Hcont Hi Hj; [done|].
  destruct Hcont as [(Hview & _ & _) Hrest]. destruct i as [|i]; simpl in Hi, Hj.
  - injection Hi as <-. destruct rest as [|r' rest']; [done|]. injection Hj as <-.
    destruct Hrest as [(Hview' & _ & _) _]. rewrite Hview, Hview'. done.
  - apply (IH _ i Hrest); done.
Qed.

Lemma setExposureList_initialized exposureList ev :
  consistentModel (_model ev) → initialized (setExposureList exposureList ev).
Proof.
  intros Hmodel.
  destruct (setExposureList_spec exposureList ev) as (ps & Heq & Hcont & Hn & Hk).
  set (good := filter (aboveThreshold (_nMinPix ev)) exposureList) in *.
  assert (∀ g : Pixel * Pixel → Pixel,
            length (good ≫= λ e, g <$> footprintPixels e) = totalNpix ps) as Hlen.
  { intros g. rewrite (totalNpix_fmap _ _ Hn).
    clear. induction good as [|x r IHr]; [done|].
    rewrite bind_cons, length_app, length_fmap, IHr. done. }
  rewrite Heq. rewrite <- (totalNpix_fmap _ _ Hn).
  unfold allocate2, allocate, cwiseSqrt.
  split; unfold getLinearParameterSize, getNonlinearParameterSize; simpl;
    rewrite ?length_fmap, ?Hlen, ?length_replicate; try done.
  - apply Forall_replicate. apply length_replicate.
  - apply Forall_replicate. apply length_replicate.
Qed.

(** C5. The buffer ranges handed out by [setExposureList], in the order the
    projections were created, start at 0, each start where the one before
    ended, are pairwise disjoint, and together cover exactly [0, N), where N
    is the sum of the accepted frames' pixel counts and the length of every
    buffer. *)
Theorem setExposureList_slices_partition
    (exposureList : list Exposure) (ev : ModelEvaluator) :
  let ev' := setExposureList exposureList ev in
  let projections := _projectionList ev' in
  let N := getNPixels ev' in
  contiguousFrom 0 projections
  ∧ (∀ i p q, projections !! i = Some p → projections !! S i = Some q →
       pixelStart (modelImageBuffer q) = pixelEnd (modelImageBuffer p))
  ∧ (∀ i p, projections !! i = Some p →
       pixelEnd (modelImageBuffer p) = pixelStart (modelImageBuffer p) + footprintNpix p
       ∧ linearParameterDerivativeBuffer p = modelImageBuffer p
       ∧ nonlinearParameterDerivativeBuffer p = modelImageBuffer p)
  ∧ N = totalNpix projections
  ∧ N = sum_list_with getNpix (filter (aboveThreshold (_nMinPix ev)) exposureList)
  ∧ (∀ i j p q, i ≠ j → projections !! i = Some p → projections !! j = Some q →
       disjoint_views (modelImageBuffer p) (modelImageBuffer q))
  ∧ (∀ k, k < N ↔ ∃ p, p ∈ projections ∧ in_view (modelImageBuffer p) k)
  ∧ length (_dataVector ev') = N ∧ length (_varianceVector ev') = N
  ∧ length (_modelImageBuffer ev') = N
  ∧ Forall (λ row, length row = N) (_linearDerivativeBuffer ev')
  ∧ Forall (λ row, length row = N) (_nonlinearDerivativeBuffer ev').
Proof.
  intros ev' projections N.
  destruct (setExposureList_spec exposureList ev) as (ps & Heq & Hcont & Hn & Hk).
  set (good := filter (aboveThreshold (_nMinPix ev)) exposureList) in *.
  assert (∀ g : Pixel * Pixel → Pixel,
            length (good ≫= λ e, g <$> footprintPixels e) = sum_list_with getNpix good)
    as Hlen.
  { intros g. clear. induction good as [|x r IHr]; [done|].
    rewrite bind_cons, length_app, length_fmap, IHr. done. }
  assert (projections = ps) as Hps by (unfold projections, ev'; rewrite Heq; done).
  assert (N = sum_list_with getNpix good) as HN.
  { unfold N, getNPixels, ev'. rewrite Heq. simpl. apply Hlen. }
  assert (N = totalNpix projections) as HNt.
  { rewrite HN, Hps. symmetry. by apply totalNpix_fmap. }
  rewrite Hps in *. clear Hps.
  split; [done|].
  split; [intros i p q; by apply (contiguousFrom_next 0)|].
  split.
  { intros i p Hi. clear - Hcont Hi. revert Hcont Hi. generalize 0. revert i.
    induction ps as [|r rest IH]; intros i start Hcont Hi; [done|].
    destruct Hcont as [(Hv1 & Hv2 & Hv3) Hrest]. destruct i as [|i]; simpl in Hi.
    - injection Hi as <-. rewrite Hv1, Hv2, Hv3. done.
    - by apply (IH i _ Hrest). }
  split; [done|]. split; [done|].
  split; [intros i j p q; by apply (contiguousFrom_disjoint 0)|].
  split.
  { intros k. rewrite <- (contiguousFrom_cover 0 ps k Hcont). rewrite HNt. lia. }
  unfold ev'. rewrite Heq. simpl. rewrite !Hlen. fold good. rewrite <- HN.
  unfold allocate2, allocate.
  repeat split; try done; try apply length_replicate.
  - apply Forall_replicate. apply length_replicate.
  - apply Forall_replicate. apply length_replicate.
Qed.


(** ** Validity flags *)

Lemma validProduct_lor_same (vp flag : Z) :
  flag ≠ 0%Z → negb (Z.land (Z.lor vp flag) flag =? 0)%Z = true.
Proof.
  intros Hflag. rewrite Z.land_lor_distr_l, Z.land_diag.
  apply negb_true_iff, Z.eqb_neq. intros Hz.
  apply Z.lor_eq_0_iff in Hz as [_ Hz]. done.
Qed.

Lemma validProduct_lor_other (vp flag other : Z) :
  Z.land flag other = 0%Z →
  Z.land (Z.lor vp flag) other = Z.land vp other.
Proof. intros Hdisj. rewrite Z.land_lor_distr_l, Hdisj, Z.lor_0_r. done. Qed.

Lemma lor_flag_set (vp : Z) (n : nat) :
  Z.land vp (2 ^ Z.of_nat n) ≠ 0%Z → Z.lor vp (2 ^ Z.of_nat n) = vp.
Proof.
  intros Hset. apply Z.bits_inj'. intros k Hk.
  rewrite Z.lor_spec. destruct (decide (k = Z.of_nat n)) as [->|Hne].
  - rewrite Z.pow2_bits_true by lia. rewrite orb_true_r.
    destruct (Z.testbit vp (Z.of_nat n)) eqn:Hbit; [done|]. exfalso. apply Hset.
    apply Z.bits_inj'. intros j Hj. rewrite Z.land_spec, Z.bits_0.
    destruct (decide (j = Z.of_nat n)) as [->|Hjn].
    + rewrite Hbit. done.
    + rewrite Z.pow2_bits_false by lia. apply andb_false_r.
  - rewrite Z.pow2_bits_false by lia. apply orb_false_r.
Qed.

(** C6. [computeModelImage] sets the MODEL_IMAGE bit and no other: the two
    derivative flags keep the value they had, every other bit of
    [_validProducts] too, and neither the derivative buffers nor the cached
    derivative matrices are written. The vector returned is the cached
    [_modelImage]. *)
Theorem computeModelImage_touches_only_model_image (ev : ModelEvaluator) :
  let '(ev', image) := computeModelImage ev in
  _validProducts ev' = Z.lor (_validProducts ev) MODEL_IMAGE
  ∧ validProduct ev' MODEL_IMAGE = true
  ∧ validProduct ev' LINEAR_PARAMETER_DERIVATIVE
    = validProduct ev LINEAR_PARAMETER_DERIVATIVE
  ∧ validProduct ev' NONLINEAR_PARAMETER_DERIVATIVE
    = validProduct ev NONLINEAR_PARAMETER_DERIVATIVE
  ∧ _linearDerivativeBuffer ev' = _linearDerivativeBuffer ev
  ∧ _nonlinearDerivativeBuffer ev' = _nonlinearDerivativeBuffer ev
  ∧ _linearDerivative ev' = _linearDerivative ev
  ∧ _nonlinearDerivative ev' = _nonlinearDerivative ev
  ∧ image = _modelImage ev'.
Proof.
  unfold computeModelImage.
  destruct (validProduct ev MODEL_IMAGE) eqn:Hvalid; simpl.
  - split; [|done].
    unfold validProduct in Hvalid. apply negb_true_iff, Z.eqb_neq in Hvalid.
    symmetry. apply (lor_flag_set _ 0). exact Hvalid.
  - unfold validProduct. simpl.
    split; [done|]. split; [by apply validProduct_lor_same|].
    rewrite !validProduct_lor_other by done. done.
Qed.

(** The scenario of the specification: with all flags cleared, asking for the
    model image leaves exactly MODEL_IMAGE set. *)
Lemma computeModelImage_from_cleared ev :
  _validProducts ev = 0%Z →
  _validProducts (computeModelImage ev).1 = MODEL_IMAGE.
Proof.
  intros Hz. unfold computeModelImage, validProduct. rewrite Hz. simpl. rewrite Hz. done.
Qed.

(** Frames of 5, 2 and 3 pixels with threshold 2, nLinear = nNonlinear = 1:
    the frame of 2 pixels is left out, N = 8, both derivative buffers are
    1 x 8, and after the parameters are set [computeModelImage] returns 8
    values and leaves MODEL_IMAGE as the only valid product. *)
Example two_frames_scenario :
  let ev := Sample.evaluator11 in
  (modelImageBuffer <$> _projectionList ev = [mkView 0 5; mkView 5 8])
  ∧ getNPixels ev = 8
  ∧ length <$> _linearDerivativeBuffer ev = [8]
  ∧ length <$> _nonlinearDerivativeBuffer ev = [8]
  ∧ (ev1 ← setLinearParameters [1%float] ev;
     ev2 ← setNonlinearParameters [0.5%float] ev1;
     let '(ev3, image) := computeModelImage ev2 in
     Some (length image, _validProducts ev3,
           validProduct ev3 LINEAR_PARAMETER_DERIVATIVE,
           validProduct ev3 NONLINEAR_PARAMETER_DERIVATIVE))
    = Some (8, MODEL_IMAGE, false, false).
Proof. vm_compute. repeat split; reflexivity. Qed.

Lemma computeModelImage_cached ev :
  validProduct ev MODEL_IMAGE = true → computeModelImage ev = (ev, _modelImage ev).
Proof. intros Hvalid. unfold computeModelImage. rewrite Hvalid. done. Qed.

(** ** The cached products of an initialized evaluator *)

Lemma imap_imap {A B C} (g : nat → B → C) (h : nat → A → B) (l : list A) :
  imap g (imap h l) = imap (λ i x, g i (h i x)) l.
Proof.
  apply list_eq. intros i. rewrite !list_lookup_imap.
  destruct (l !! i); done.
Qed.

Lemma imap_id_ext {A} (g : nat → A → A) (l : list A) :
  (∀ i x, g i x = x) → imap g l = l.
Proof.
  intros Hg. apply list_eq. intros i. rewrite list_lookup_imap.
  destruct (l !! i); simpl; [rewrite Hg|]; done.
Qed.

Lemma imap_seq_ext {A B} (g : nat → A → B) (h : nat → B) (l : list A) :
  (∀ i x, l !! i = Some x → g i x = h i) → imap g l = h <$> seq 0 (length l).
Proof.
  intros Hg. apply list_eq. intros i. rewrite list_lookup_imap, list_lookup_fmap.
  destruct (l !! i) as [x|] eqn:Hi; simpl.
  - rewrite lookup_seq_lt by (by eapply lookup_lt_Some). simpl. f_equal. by apply Hg.
  - rewrite lookup_ge_None_2; [done|]. rewrite length_seq. by apply lookup_ge_None_1.
Qed.

(** Writing the rows of a two-dimensional buffer projection after projection
    is writing each row projection after projection. *)
Lemma foldl_write_view2 (view : ModelProjection → View)
    (values : ModelProjection → nat → nat → Pixel)
    (projections : list ModelProjection) (buffer : Matrix) :
  foldl (λ b p, write_view2 (view p) (values p) b) buffer projections
  = imap (λ i row, foldl (λ r p, write_view (view p) (values p i) r) row projections)
      buffer.
Proof.
  revert buffer. induction projections as [|p rest IH]; intros buffer; simpl.
  - symmetry. by apply imap_id_ext.
  - rewrite IH. unfold write_view2. apply imap_imap.
Qed.

Lemma foldl_write_view2_all view values projections (buffer : Matrix) :
  spansFrom view 0 projections →
  Forall (λ row, length row = totalNpix projections) buffer →
  foldl (λ b p, write_view2 (view p) (values p) b) buffer projections
  = (λ i, projections ≫= λ p, values p i <$> seq 0 (footprintNpix p))
    <$> seq 0 (length buffer).
Proof.
  intros Hspan Hrows. rewrite foldl_write_view2.
  apply (imap_seq_ext _
           (λ i, projections ≫= λ p, values p i <$> seq 0 (footprintNpix p))).
  intros i row Hi. apply (foldl_write_all view (λ p, values p i)); [done|].
  by apply (Forall_lookup_1 _ _ _ _ Hrows Hi).
Qed.

Lemma contiguousFrom_spans start projections :
  contiguousFrom start projections →
  spansFrom modelImageBuffer start projections
  ∧ spansFrom linearParameterDerivativeBuffer start projections
  ∧ spansFrom nonlinearParameterDerivativeBuffer start projections.
Proof.
  revert start. induction projections as [|p rest IH]; intros start Hcont; [done|].
  destruct Hcont as [(Hv1 & Hv2 & Hv3) Hrest]. destruct (IH _ Hrest) as (H1 & H2 & H3).
  simpl. done.
Qed.

Lemma length_rawModelImage m projections :
  length (rawModelImage m projections) = totalNpix projections.
Proof. apply (length_bind_values (λ p, kernelModelImage (kernel p) m)). Qed.

Lemma MatrixMap_all (data : Matrix) n columns :
  length data = columns → Forall (λ row, length row = n) data →
  MatrixMap data n columns = data.
Proof.
  intros Hcols Hrows. unfold MatrixMap.
  rewrite take_ge by (rewrite length_fmap; lia).
  apply list_eq. intros i. rewrite list_lookup_fmap.
  destruct (data !! i) as [row|] eqn:Hi; simpl; [|done].
  rewrite take_ge; [done|]. by rewrite (Forall_lookup_1 _ _ _ _ Hrows Hi).
Qed.

(** The column loop divides columns [i .. i + count - 1] and fails exactly
    when it runs past the last column. *)
Lemma divideColumns_spec sigma (m : Matrix) i count :
  divideColumns sigma m i count
  = if decide (count = 0 ∨ i + count ≤ length m) then
      Some (imap (λ j column,
                    if bool_decide (i ≤ j < i + count)
                    then cwiseQuotient column sigma else column) m)
    else None.
Proof.
  revert m i. induction count as [|count IH]; intros m i; simpl.
  - f_equal. symmetry. apply imap_id_ext.
    intros j x. rewrite bool_decide_eq_false_2 by lia. done.
  - destruct (m !! i) as [column|] eqn:Hi; simpl.
    + rewrite IH. rewrite length_insert.
      pose proof (lookup_lt_Some _ _ _ Hi) as Hlt.
      destruct (decide (S count = 0 ∨ i + S count ≤ length m)) as [Hok|Hbad].
      * rewrite decide_True by lia. f_equal.
        apply list_eq. intros j. rewrite !list_lookup_imap.
        destruct (decide (i = j)) as [<-|Hne].
        -- rewrite list_lookup_insert_eq by done. rewrite Hi. simpl.
           rewrite bool_decide_eq_false_2 by lia.
           rewrite bool_decide_eq_true_2 by lia. done.
        -- rewrite list_lookup_insert_ne by done.
           destruct (m !! j); simpl; [|done]. f_equal.
           destruct (decide (S i ≤ j < S i + count)).
           ++ rewrite !bool_decide_eq_true_2 by lia. done.
           ++ rewrite !bool_decide_eq_false_2 by lia. done.
      * rewrite decide_False by lia. done.
    + apply lookup_ge_None_1 in Hi. rewrite decide_False by lia. done.
Qed.

Lemma divideColumns_first sigma (m : Matrix) count :
  divideColumns sigma m 0 count
  = if decide (count ≤ length m) then Some (divideFirstColumns sigma count m) else None.
Proof.
  rewrite divideColumns_spec. unfold divideFirstColumns.
  destruct (decide (count ≤ length m)).
  - rewrite decide_True by lia. f_equal. apply imap_ext. intros j x _. simpl.
    destruct (decide (j < count)).
    + rewrite !bool_decide_eq_true_2 by lia. done.
    + rewrite !bool_decide_eq_false_2 by lia. done.
  - rewrite decide_False by lia. done.
Qed.

Lemma divideFirstColumns_all sigma (m : Matrix) :
  divideFirstColumns sigma (length m) m = (λ column, cwiseQuotient column sigma) <$> m.
Proof.
  unfold divideFirstColumns. apply list_eq. intros j.
  rewrite list_lookup_imap, list_lookup_fmap.
  destruct (m !! j) eqn:Hj; simpl; [|done].
  rewrite bool_decide_eq_true_2; [done|]. by eapply lookup_lt_Some.
Qed.

Lemma computeModelImage_fresh ev :
  initialized ev → validProduct ev MODEL_IMAGE = false →
  computeModelImage ev
  = (evaluatorAfterModelImage ev, modelImageAt (_model ev) (_projectionList ev) (_sigma ev)).
Proof.
  intros Hinit Hvalid. unfold computeModelImage. rewrite Hvalid. simpl.
  destruct (contiguousFrom_spans _ _ (init_views _ Hinit)) as (Hspan & _ & _).
  unfold projectionComputeModelImage.
  rewrite (foldl_write_all modelImageBuffer (λ p, kernelModelImage (kernel p) (_model ev)))
    by (done || apply Hinit).
  fold (rawModelImage (_model ev) (_projectionList ev)).
  unfold VectorMap, getNPixels.
  rewrite take_ge by (rewrite length_rawModelImage, (init_data _ Hinit); done).
  done.
Qed.

Lemma computeLinearParameterDerivative_fresh ev :
  initialized ev → validProduct ev LINEAR_PARAMETER_DERIVATIVE = false →
  computeLinearParameterDerivative ev
  = Some (evaluatorAfterLinearDerivative ev,
          linearDerivativeAt (_model ev) (_projectionList ev) (_sigma ev)).
Proof.
  intros Hinit Hvalid. unfold computeLinearParameterDerivative. rewrite Hvalid. simpl.
  destruct (contiguousFrom_spans _ _ (init_views _ Hinit)) as (_ & Hspan & _).
  unfold projectionComputeLinearParameterDerivative.
  rewrite (foldl_write_view2_all linearParameterDerivativeBuffer
             (λ p, kernelLinearParameterDerivative (kernel p) (_model ev)))
    by (done || apply Hinit).
  rewrite (init_linearRows _ Hinit). unfold getLinearParameterSize.
  fold (rawLinearDerivative (_model ev) (_projectionList ev)).
  assert (length (rawLinearDerivative (_model ev) (_projectionList ev))
          = linearParameterSize (_model ev)) as Hcols.
  { unfold rawLinearDerivative. rewrite length_fmap, length_seq. done. }
  rewrite MatrixMap_all; [|done|].
  - rewrite divideColumns_first, decide_True by lia.
    rewrite <- Hcols at 1. rewrite divideFirstColumns_all. done.
  - unfold rawLinearDerivative. apply Forall_fmap, Forall_forall. intros i _. simpl.
    unfold getNPixels. rewrite (init_data _ Hinit).
    apply (length_bind_values (λ p, kernelLinearParameterDerivative (kernel p) (_model ev) i)).
Qed.

Lemma computeNonlinearParameterDerivative_fresh ev :
  initialized ev → validProduct ev NONLINEAR_PARAMETER_DERIVATIVE = false →
  computeNonlinearParameterDerivative ev
  = (λ d, (evaluatorAfterNonlinearDerivative ev, d))
    <$> nonlinearDerivativeAt (_model ev) (_projectionList ev) (_sigma ev).
Proof.
  intros Hinit Hvalid. unfold computeNonlinearParameterDerivative. rewrite Hvalid. simpl.
  destruct (contiguousFrom_spans _ _ (init_views _ Hinit)) as (_ & _ & Hspan).
  unfold projectionComputeNonlinearParameterDerivative.
  rewrite (foldl_write_view2_all nonlinearParameterDerivativeBuffer
             (λ p, kernelNonlinearParameterDerivative (kernel p) (_model ev)))
    by (done || apply Hinit).
  rewrite (init_nonlinearRows _ Hinit). unfold getNonlinearParameterSize, getLinearParameterSize.
  fold (rawNonlinearDerivative (_model ev) (_projectionList ev)).
  assert (length (rawNonlinearDerivative (_model ev) (_projectionList ev))
          = nonlinearParameterSize (_model ev)) as Hcols.
  { unfold rawNonlinearDerivative. rewrite length_fmap, length_seq. done. }
  rewrite MatrixMap_all; [|done|].
  - rewrite divideColumns_first, Hcols. unfold nonlinearDerivativeAt.
    unfold evaluatorAfterNonlinearDerivative, nonlinearDerivativeAt.
    destruct (decide (linearParameterSize (_model ev) ≤ nonlinearParameterSize (_model ev)));
      done.
  - unfold rawNonlinearDerivative. apply Forall_fmap, Forall_forall. intros i _. simpl.
    unfold getNPixels. rewrite (init_data _ Hinit).
    apply (length_bind_values
             (λ p, kernelNonlinearParameterDerivative (kernel p) (_model ev) i)).
Qed.

(** ** The adapter on an initialized evaluator *)

#[local] Arguments computeModelImage : simpl never.
#[local] Arguments computeLinearParameterDerivative : simpl never.
#[local] Arguments computeNonlinearParameterDerivative : simpl never.
#[local] Arguments evaluatorAfterPush : simpl never.
#[local] Arguments evaluatorAfterModelImage : simpl never.
#[local] Arguments evaluatorAfterLinearDerivative : simpl never.
#[local] Arguments evaluatorAfterNonlinearDerivative : simpl never.
#[local] Arguments evaluatorAfterValue : simpl never.
#[local] Arguments evaluatorAfterGradient : simpl never.
#[local] Arguments pushedModel : simpl never.

(** Reduce the binds of the option monad and nothing else. *)
Ltac bind_step := cbn [mbind option_bind fmap option_fmap option_map].

Lemma checkParams_dirty params f ev : _dirty f = true → checkParams params f ev = Some f.
Proof. intros Hdirty. unfold checkParams. rewrite Hdirty. done. Qed.

Lemma pushParams_dirty params f ev :
  _dirty f = true →
  pushParams params f ev
  = if decide (getLinearParameterSize ev + getNonlinearParameterSize ev ≤ length params)
    then Some (evaluatorAfterPush params ev) else None.
Proof.
  intros Hdirty. unfold pushParams, setLinearParameters, setNonlinearParameters.
  unfold getLinearParameterSize, getNonlinearParameterSize. rewrite Hdirty.
  destruct (decide (linearParameterSize (_model ev) ≤ length params)) as [Hl|Hl]; simpl.
  - rewrite length_drop.
    destruct (decide (nonlinearParameterSize (_model ev)
                      ≤ length params - linearParameterSize (_model ev))) as [Hn|Hn].
    + rewrite decide_True by lia. done.
    + rewrite decide_False by lia. done.
  - rewrite decide_False by lia. done.
Qed.

Lemma pushedModel_consistent params m :
  linearParameterSize m + nonlinearParameterSize m ≤ length params →
  consistentModel (pushedModel params m).
Proof.
  intros Hlen. unfold consistentModel, pushedModel. simpl.
  rewrite !length_take, length_drop. lia.
Qed.

Lemma pushedModel_own m :
  consistentModel m → pushedModel (linearParameters m ++ nonlinearParameters m) m = m.
Proof.
  intros [Hl Hn]. unfold pushedModel. destruct m as [nl nn lin nonlin]. simpl in *.
  rewrite take_app_length' by done. rewrite drop_app_length' by done.
  rewrite take_ge by lia. done.
Qed.

Lemma initialized_afterPush params ev :
  initialized ev →
  getLinearParameterSize ev + getNonlinearParameterSize ev ≤ length params →
  initialized (evaluatorAfterPush params ev).
Proof.
  intros Hinit Hlen. destruct Hinit. split; try done.
  by apply pushedModel_consistent.
Qed.

Lemma length_rawLinearDerivative m projections :
  length (rawLinearDerivative m projections) = linearParameterSize m.
Proof. unfold rawLinearDerivative. rewrite length_fmap, length_seq. done. Qed.

Lemma length_rawNonlinearDerivative m projections :
  length (rawNonlinearDerivative m projections) = nonlinearParameterSize m.
Proof. unfold rawNonlinearDerivative. rewrite length_fmap, length_seq. done. Qed.

Lemma initialized_afterModelImage ev :
  initialized ev → initialized (evaluatorAfterModelImage ev).
Proof.
  intros Hinit. destruct Hinit. split; try done.
  simpl. apply length_rawModelImage.
Qed.

Lemma initialized_afterLinearDerivative ev :
  initialized ev → initialized (evaluatorAfterLinearDerivative ev).
Proof.
  intros Hinit. destruct Hinit. split; try done.
  - simpl. apply length_rawLinearDerivative.
  - simpl. unfold rawLinearDerivative. apply Forall_fmap, Forall_forall. intros i _. simpl.
    apply (length_bind_values (λ p, kernelLinearParameterDerivative (kernel p) (_model ev) i)).
Qed.

Lemma initialized_afterNonlinearDerivative ev :
  initialized ev → initialized (evaluatorAfterNonlinearDerivative ev).
Proof.
  intros Hinit. destruct Hinit. split; try done.
  - simpl. apply length_rawNonlinearDerivative.
  - simpl. unfold rawNonlinearDerivative. apply Forall_fmap, Forall_forall. intros i _. simpl.
    apply (length_bind_values
             (λ p, kernelNonlinearParameterDerivative (kernel p) (_model ev) i)).
Qed.

Lemma initialized_afterValue params ev :
  initialized ev →
  getLinearParameterSize ev + getNonlinearParameterSize ev ≤ length params →
  initialized (evaluatorAfterValue params ev).
Proof. intros. by apply initialized_afterModelImage, initialized_afterPush. Qed.

Lemma initialized_afterGradient params ev :
  initialized ev →
  getLinearParameterSize ev + getNonlinearParameterSize ev ≤ length params →
  initialized (evaluatorAfterGradient params ev).
Proof.
  intros. by apply initialized_afterNonlinearDerivative,
    initialized_afterLinearDerivative, initialized_afterValue.
Qed.

(** With the flag set, [computeValue] pushes [params] and evaluates the
    objective at them, whatever the evaluator held before. *)
Lemma computeValue_dirty params f ev :
  initialized ev → _dirty f = true →
  computeValue params f ev
  = if decide (getLinearParameterSize ev + getNonlinearParameterSize ev ≤ length params)
    then (λ value, (value, f, evaluatorAfterValue params ev))
         <$> valueAt (pushedModel params (_model ev)) (_projectionList ev) (_sigma ev)
               (_measured f)
    else None.
Proof.
  intros Hinit Hdirty. unfold computeValue.
  rewrite checkParams_dirty by done. bind_step.
  rewrite pushParams_dirty by done.
  destruct (decide (getLinearParameterSize ev + getNonlinearParameterSize ev
                    ≤ length params)) as [Hlen|Hlen]; [|done].
  bind_step. rewrite computeModelImage_fresh; [|by apply initialized_afterPush|done].
  unfold valueAt. change (_model (evaluatorAfterPush params ev))
    with (pushedModel params (_model ev)).
  change (_projectionList (evaluatorAfterPush params ev)) with (_projectionList ev).
  change (_sigma (evaluatorAfterPush params ev)) with (_sigma ev).
  destruct (vectorDifference _ _); done.
Qed.

Lemma length_negTransposeTimes (m : Matrix) r : length (negTransposeTimes m r) = length m.
Proof. unfold negTransposeTimes. apply length_fmap. Qed.

Lemma length_nonlinearDerivativeAt m projections sigma d :
  nonlinearDerivativeAt m projections sigma = Some d →
  length d = nonlinearParameterSize m.
Proof.
  unfold nonlinearDerivativeAt. destruct (decide _); [|done]. intros [= <-].
  unfold divideFirstColumns. rewrite length_imap. apply length_rawNonlinearDerivative.
Qed.

Lemma computeGradient_dirty params f ev :
  initialized ev → _dirty f = true →
  computeGradient params f ev
  = if decide (length params = getLinearParameterSize ev + getNonlinearParameterSize ev)
    then (λ gradient, (gradient, f, evaluatorAfterGradient params ev))
         <$> gradientAt (pushedModel params (_model ev)) (_projectionList ev) (_sigma ev)
               (_measured f)
    else None.
Proof.
  intros Hinit Hdirty. unfold computeGradient.
  rewrite checkParams_dirty by done. bind_step.
  rewrite pushParams_dirty by done.
  destruct (decide (getLinearParameterSize ev + getNonlinearParameterSize ev
                    ≤ length params)) as [Hlen|Hlen]; [|by rewrite decide_False by lia].
  bind_step. rewrite computeModelImage_fresh; [|by apply initialized_afterPush|done].
  fold (evaluatorAfterValue params ev).
  unfold gradientAt.
  change (_model (evaluatorAfterPush params ev)) with (pushedModel params (_model ev)).
  change (_projectionList (evaluatorAfterPush params ev)) with (_projectionList ev).
  change (_sigma (evaluatorAfterPush params ev)) with (_sigma ev).
  set (m := pushedModel params (_model ev)).
  destruct (vectorDifference _ _) as [residual|]; bind_step; [|by destruct (decide _)].
  rewrite computeLinearParameterDerivative_fresh;
    [|by apply initialized_afterValue|done].
  bind_step.
  rewrite computeNonlinearParameterDerivative_fresh;
    [|by apply initialized_afterLinearDerivative, initialized_afterValue|done].
  change (_model (evaluatorAfterLinearDerivative (evaluatorAfterValue params ev))) with m.
  change (_model (evaluatorAfterValue params ev)) with m.
  change (_projectionList (evaluatorAfterLinearDerivative (evaluatorAfterValue params ev)))
    with (_projectionList ev).
  change (_projectionList (evaluatorAfterValue params ev)) with (_projectionList ev).
  change (_sigma (evaluatorAfterLinearDerivative (evaluatorAfterValue params ev)))
    with (_sigma ev).
  change (_sigma (evaluatorAfterValue params ev)) with (_sigma ev).
  fold (evaluatorAfterGradient params ev).
  destruct (nonlinearDerivativeAt _ _ _) as [npd|] eqn:Hnpd; bind_step;
    [|by destruct (decide _)].
  unfold commaInitialize.
  rewrite length_app, !length_negTransposeTimes.
  rewrite (length_nonlinearDerivativeAt _ _ _ _ Hnpd).
  unfold linearDerivativeAt. rewrite length_fmap, length_rawLinearDerivative.
  unfold getLinearParameterSize, getNonlinearParameterSize in *.
  change (linearParameterSize m) with (linearParameterSize (_model ev)).
  change (nonlinearParameterSize m) with (nonlinearParameterSize (_model ev)).
  destruct (decide (length params = _)) as [Heq|Hne].
  - rewrite decide_True by lia. done.
  - rewrite decide_False by lia. done.
Qed.

Lemma length_modelImageAt m projections (sigma : Vector) :
  length sigma = totalNpix projections →
  length (modelImageAt m projections sigma) = totalNpix projections.
Proof.
  intros Hsigma. unfold modelImageAt, cwiseQuotient.
  rewrite length_zip_with, length_rawModelImage. lia.
Qed.

Lemma valueAt_defined m projections (sigma measured : Vector) :
  length sigma = totalNpix projections → length measured = totalNpix projections →
  is_Some (valueAt m projections sigma measured).
Proof.
  intros Hsigma Hmeasured. unfold valueAt, vectorDifference.
  pose proof (length_modelImageAt m projections sigma Hsigma) as Hlen.
  rewrite decide_True by congruence. bind_step. by eexists.
Qed.

Lemma gradientAt_defined m projections (sigma measured : Vector) :
  length sigma = totalNpix projections → length measured = totalNpix projections →
  linearParameterSize m ≤ nonlinearParameterSize m →
  is_Some (gradientAt m projections sigma measured).
Proof.
  intros Hsigma Hmeasured Hsizes. unfold gradientAt, vectorDifference, nonlinearDerivativeAt.
  pose proof (length_modelImageAt m projections sigma Hsigma) as Hlen.
  rewrite !decide_True by congruence. bind_step. by eexists.
Qed.

Lemma sameSetup_refl ev : sameSetup ev ev.
Proof. done. Qed.

Lemma sameSetup_trans ev1 ev2 ev3 : sameSetup ev1 ev2 → sameSetup ev2 ev3 → sameSetup ev1 ev3.
Proof. intros (? & ? & ? & ?) (? & ? & ? & ?). unfold sameSetup. split_and!; congruence. Qed.

Lemma sameSetup_afterValue params ev : sameSetup ev (evaluatorAfterValue params ev).
Proof. done. Qed.

Lemma sameSetup_afterGradient params ev : sameSetup ev (evaluatorAfterGradient params ev).
Proof. done. Qed.

Lemma pushedModel_sameSetup params ev ev' :
  sameSetup ev ev' → pushedModel params (_model ev') = pushedModel params (_model ev).
Proof. intros (_ & _ & Hl & Hn). unfold pushedModel. rewrite Hl, Hn. done. Qed.

(** An adapter whose flag is set comes back unchanged from both operations:
    nothing clears the flag. *)
Lemma computeValue_keeps_adapter params f ev value f' ev' :
  initialized ev → _dirty f = true →
  computeValue params f ev = Some (value, f', ev') →
  f' = f ∧ ev' = evaluatorAfterValue params ev
  ∧ getLinearParameterSize ev + getNonlinearParameterSize ev ≤ length params.
Proof.
  intros Hinit Hdirty. rewrite computeValue_dirty by done.
  destruct (decide _); [|done]. destruct (valueAt _ _ _ _); [|done].
  bind_step. intros [= <- <- <-]. done.
Qed.

Lemma computeGradient_keeps_adapter params f ev gradient f' ev' :
  initialized ev → _dirty f = true →
  computeGradient params f ev = Some (gradient, f', ev') →
  f' = f ∧ ev' = evaluatorAfterGradient params ev
  ∧ length params = getLinearParameterSize ev + getNonlinearParameterSize ev.
Proof.
  intros Hinit Hdirty. rewrite computeGradient_dirty by done.
  destruct (decide _); [|done]. destruct (gradientAt _ _ _ _); [|done].
  bind_step. intros [= <- <- <-]. done.
Qed.

Lemma runFcn_invariant {R} (c : FcnClient R) f ev r f' ev' :
  initialized ev → _dirty f = true →
  runFcn c f ev = Some (r, f', ev') →
  f' = f ∧ initialized ev' ∧ sameSetup ev ev'.
Proof.
  revert ev. induction c as [r0|params k IH]; intros ev Hinit Hdirty; simpl.
  - intros [= <- <- <-]. split_and!; [done|done|apply sameSetup_refl].
  - destruct (computeValue params f ev) as [[[value f1] ev1]|] eqn:Hvalue; [|done].
    bind_step.
    apply computeValue_keeps_adapter in Hvalue as (-> & -> & Hlen); [|done|done].
    intros Hrun. apply IH in Hrun as (-> & Hinit' & Hsetup);
      [|by apply initialized_afterValue|done].
    split_and!; [done|done|].
    eapply sameSetup_trans; [apply (sameSetup_afterValue params)|done].
Qed.


(** ** The objective adapter: claims *)

(** C3. After [value(p1)], [gradient(p2)] pushes [p2] into the evaluator,
    which clears every validity flag, and recomputes the three products: the
    gradient returned and the products left in the cache are those of [p2],
    as defined from the projections' kernels, with nothing of [p1] in them.
    This holds for any [p1] and [p2] of the model's dimension, equal or not,
    since the adapter's flag is set at every call. The gradient exists when
    the column loop of the nonlinear derivative stays in range. *)
Theorem gradient_after_value_uses_pushed_parameters
    (ev0 ev : ModelEvaluator) (p1 p2 : Vector) :
  let f := newChisqFunction ev0 in
  let m2 := pushedModel p2 (_model ev) in
  initialized ev →
  length (getWeightedData ev0) = getNPixels ev →
  length p1 = getLinearParameterSize ev + getNonlinearParameterSize ev →
  length p2 = getLinearParameterSize ev + getNonlinearParameterSize ev →
  ∃ v1 ev1,
    let ev2 := evaluatorAfterGradient p2 ev1 in
    computeValue p1 f ev = Some (v1, f, ev1)
    ∧ _validProducts (evaluatorAfterPush p2 ev1) = 0%Z
    ∧ computeGradient p2 f ev1
      = (λ g, (g, f, ev2))
        <$> gradientAt m2 (_projectionList ev) (_sigma ev) (getWeightedData ev0)
    ∧ _model ev2 = m2
    ∧ _modelImage ev2 = modelImageAt m2 (_projectionList ev) (_sigma ev)
    ∧ _linearDerivative ev2 = linearDerivativeAt m2 (_projectionList ev) (_sigma ev)
    ∧ (getLinearParameterSize ev ≤ getNonlinearParameterSize ev →
       is_Some (gradientAt m2 (_projectionList ev) (_sigma ev) (getWeightedData ev0))
       ∧ nonlinearDerivativeAt m2 (_projectionList ev) (_sigma ev)
         = Some (_nonlinearDerivative ev2)).
Proof.
  intros f m2 Hinit Hmeasured Hp1 Hp2.
  assert (_dirty f = true) as Hdirty by done.
  pose proof (init_data _ Hinit) as Hdata. pose proof (init_sigma _ Hinit) as Hsigma.
  unfold getNPixels in Hmeasured.
  destruct (valueAt_defined (pushedModel p1 (_model ev)) (_projectionList ev) (_sigma ev)
              (_measured f)) as [v1 Hv1]; [done|simpl; congruence|].
  exists v1, (evaluatorAfterValue p1 ev).
  assert (pushedModel p2 (_model (evaluatorAfterValue p1 ev)) = m2) as Hm2 by done.
  split.
  { rewrite computeValue_dirty, decide_True, Hv1 by (done || lia). done. }
  split; [done|]. split.
  { rewrite computeGradient_dirty by (done || (apply initialized_afterValue; done || lia)).
    rewrite decide_True by done. rewrite Hm2. done. }
  split; [done|]. split; [done|]. split; [done|].
  intros Hsizes. split.
  - apply gradientAt_defined; [done|simpl; congruence|done].
  - change (_nonlinearDerivative (evaluatorAfterGradient p2 (evaluatorAfterValue p1 ev)))
      with (default [] (nonlinearDerivativeAt m2 (_projectionList ev) (_sigma ev))).
    unfold nonlinearDerivativeAt. rewrite decide_True by done. done.
Qed.

Lemma gradient_after_value_uses_pushed_parameters_witness :
  let f := newChisqFunction Sample.evaluator11 in
  let m2 := pushedModel [3; 0.25]%float Sample.model11 in
  ∃ v1 ev1 g,
    computeValue [1; 0.5]%float f Sample.evaluator11 = Some (v1, f, ev1)
    ∧ computeGradient [3; 0.25]%float f ev1
      = Some (g, f, evaluatorAfterGradient [3; 0.25]%float ev1)
    ∧ gradientAt m2 (_projectionList Sample.evaluator11) (_sigma Sample.evaluator11)
        (getWeightedData Sample.evaluator11) = Some g
    ∧ linearParameters (_model (evaluatorAfterGradient [3; 0.25]%float ev1)) = [3%float].
Proof.
  intros f m2. subst f m2.
  destruct (gradient_after_value_uses_pushed_parameters
              Sample.evaluator11 Sample.evaluator11 [1; 0.5]%float [3; 0.25]%float)
    as (v1 & ev1 & Hv & _ & Hg & Hm & _ & _ & Hdefined).
  - apply setExposureList_initialized. vm_compute. done.
  - vm_compute. reflexivity.
  - vm_compute. reflexivity.
  - vm_compute. reflexivity.
  - destruct Hdefined as [[g Hat] _]; [vm_compute; lia|].
    exists v1, ev1, g. split; [exact Hv|]. split.
    + rewrite Hg, Hat. reflexivity.
    + split; [exact Hat|]. rewrite Hm. reflexivity.
Defined.

(** C9. [value(p)] called twice in a row returns the same number both times,
    and [computeModelImage], once MODEL_IMAGE is set, returns the cached
    vector and leaves the evaluator as it is, whatever the projections would
    compute. *)
Theorem value_twice_returns_same_value (ev0 ev : ModelEvaluator) (p : Vector) :
  let f := newChisqFunction ev0 in
  initialized ev →
  length (getWeightedData ev0) = getNPixels ev →
  length p = getLinearParameterSize ev + getNonlinearParameterSize ev →
  (∃ value ev1 ev2,
     computeValue p f ev = Some (value, f, ev1)
     ∧ computeValue p f ev1 = Some (value, f, ev2))
  ∧ (∀ e, validProduct e MODEL_IMAGE = true → computeModelImage e = (e, _modelImage e)).
Proof.
  intros f Hinit Hmeasured Hp. split; [|apply computeModelImage_cached].
  pose proof (init_data _ Hinit) as Hdata. pose proof (init_sigma _ Hinit) as Hsigma.
  unfold getNPixels in Hmeasured.
  destruct (valueAt_defined (pushedModel p (_model ev)) (_projectionList ev) (_sigma ev)
              (_measured f)) as [value Hvalue]; [done|simpl; congruence|].
  exists value, (evaluatorAfterValue p ev),
    (evaluatorAfterValue p (evaluatorAfterValue p ev)).
  split.
  - rewrite computeValue_dirty, decide_True, Hvalue by (done || lia). done.
  - rewrite computeValue_dirty by (done || (apply initialized_afterValue; done || lia)).
    rewrite decide_True by (unfold getLinearParameterSize, getNonlinearParameterSize in *;
                            simpl; lia).
    change (pushedModel p (_model (evaluatorAfterValue p ev)))
      with (pushedModel p (_model ev)).
    change (_projectionList (evaluatorAfterValue p ev)) with (_projectionList ev).
    change (_sigma (evaluatorAfterValue p ev)) with (_sigma ev).
    rewrite Hvalue. done.
Qed.

Lemma value_twice_returns_same_value_witness :
  ∃ value ev1 ev2,
    computeValue [3; 0.25]%float (newChisqFunction Sample.evaluator11) Sample.evaluator11
    = Some (value, newChisqFunction Sample.evaluator11, ev1)
    ∧ computeValue [3; 0.25]%float (newChisqFunction Sample.evaluator11) ev1
      = Some (value, newChisqFunction Sample.evaluator11, ev2).
Proof.
  apply (value_twice_returns_same_value Sample.evaluator11 Sample.evaluator11
           [3; 0.25]%float).
  - apply setExposureList_initialized. vm_compute. done.
  - vm_compute. reflexivity.
  - vm_compute. reflexivity.
Defined.

(** C10. The adapter takes the evaluator's weighted data once, when it is
    constructed. Whatever state [ev] the evaluator is in at a later call, for
    example after its frame set was reassigned, [value(p)] and [gradient(p)]
    form the residual from that copy and from the model image of [ev]; the
    data of [ev] do not enter. The adapter comes back unchanged, so this
    holds at every call. *)
Theorem measured_is_the_construction_snapshot (ev0 ev : ModelEvaluator) (p : Vector) :
  let f := newChisqFunction ev0 in
  let m := pushedModel p (_model ev) in
  initialized ev →
  _measured f = getWeightedData ev0
  ∧ computeValue p f ev
    = (if decide (getLinearParameterSize ev + getNonlinearParameterSize ev ≤ length p)
       then (λ value, (value, f, evaluatorAfterValue p ev))
            <$> valueAt m (_projectionList ev) (_sigma ev) (getWeightedData ev0)
       else None)
  ∧ computeGradient p f ev
    = (if decide (length p = getLinearParameterSize ev + getNonlinearParameterSize ev)
       then (λ gradient, (gradient, f, evaluatorAfterGradient p ev))
            <$> gradientAt m (_projectionList ev) (_sigma ev) (getWeightedData ev0)
       else None)
  ∧ (length (getWeightedData ev0) = getNPixels ev →
     length p = getLinearParameterSize ev + getNonlinearParameterSize ev →
     is_Some (computeValue p f ev)).
Proof.
  intros f m Hinit. split; [done|].
  split; [by apply computeValue_dirty|]. split; [by apply computeGradient_dirty|].
  intros Hmeasured Hp. rewrite computeValue_dirty, decide_True by (done || lia).
  unfold getNPixels in Hmeasured.
  destruct (valueAt_defined (pushedModel p (_model ev)) (_projectionList ev) (_sigma ev)
              (_measured f)) as [value Hvalue].
  - apply Hinit.
  - simpl. rewrite Hmeasured. apply Hinit.
  - rewrite Hvalue. by eexists.
Qed.

(** The frame set reassigned after the adapter was built: the value is the one
    for the old data, not the one an adapter built afterwards returns. *)
Lemma measured_is_the_construction_snapshot_witness :
  let ev0 := Sample.evaluator12 in
  let ev := setExposureList [Sample.frameD] ev0 in
  let p := [1; 0.5; 0.25]%float in
  (λ r, r.1.1) <$> computeValue p (newChisqFunction ev0) ev
  = valueAt (pushedModel p (_model ev)) (_projectionList ev) (_sigma ev)
      (getWeightedData ev0)
  ∧ (λ r, r.1.1) <$> computeValue p (newChisqFunction ev0) ev = Some 0.34375%float
  ∧ (λ r, r.1.1) <$> computeValue p (newChisqFunction ev) ev = Some 135.09375%float.
Proof.
  intros ev0 ev p.
  destruct (measured_is_the_construction_snapshot ev0 ev p) as (_ & Hvalue & _).
  - apply setExposureList_initialized. vm_compute. done.
  - split; [|split; vm_compute; reflexivity].
    rewrite Hvalue. rewrite decide_True by (vm_compute; lia).
    destruct (valueAt _ _ _ _); reflexivity.
Defined.

(** ** Where the code departs from its documentation *)

(** What the column loop of [computeNonlinearParameterDerivative] does on an
    initialized evaluator: the first [nLinear] columns are divided by sigma,
    the others are left raw, and with more linear than nonlinear parameters
    the loop runs out of range. *)
Lemma computeNonlinearParameterDerivative_columns ev :
  initialized ev → validProduct ev NONLINEAR_PARAMETER_DERIVATIVE = false →
  snd <$> computeNonlinearParameterDerivative ev
  = if decide (getLinearParameterSize ev ≤ getNonlinearParameterSize ev) then
      Some (divideFirstColumns (_sigma ev) (getLinearParameterSize ev)
              (rawNonlinearDerivative (_model ev) (_projectionList ev)))
    else None.
Proof.
  intros Hinit Hvalid. rewrite computeNonlinearParameterDerivative_fresh by done.
  unfold nonlinearDerivativeAt, getLinearParameterSize, getNonlinearParameterSize.
  destruct (decide _); done.
Qed.

(** On the same evaluator every column of the linear derivative is divided. *)
Lemma computeLinearParameterDerivative_columns ev :
  initialized ev → validProduct ev LINEAR_PARAMETER_DERIVATIVE = false →
  snd <$> computeLinearParameterDerivative ev
  = Some ((λ column, cwiseQuotient column (_sigma ev))
          <$> rawLinearDerivative (_model ev) (_projectionList ev)).
Proof.
  intros Hinit Hvalid. rewrite computeLinearParameterDerivative_fresh by done. done.
Qed.

(** C1 (the code at the failing input). One frame of three pixels with sigma 2
    and raw nonlinear derivative 8 everywhere. With nLinear = 1 and
    nNonlinear = 2, [computeNonlinearParameterDerivative] returns column 0
    divided by sigma and column 1 not divided; with nLinear = 2 and
    nNonlinear = 1 the loop asks for column 1 of a one-column matrix. The
    linear derivative of the same evaluators has every column divided. *)
Theorem computeNonlinearParameterDerivative_uses_linear_count :
  _sigma Sample.evaluator12 = [2; 2; 2]%float
  ∧ rawNonlinearDerivative (_model Sample.evaluator12) (_projectionList Sample.evaluator12)
    = [[8; 8; 8]; [8; 8; 8]]%float
  ∧ snd <$> computeNonlinearParameterDerivative Sample.evaluator12
    = Some [[4; 4; 4]; [8; 8; 8]]%float
  ∧ snd <$> computeNonlinearParameterDerivative Sample.evaluator21 = None
  ∧ rawLinearDerivative (_model Sample.evaluator21) (_projectionList Sample.evaluator21)
    = [[1; 2; 3]; [1; 2; 3]]%float
  ∧ snd <$> computeLinearParameterDerivative Sample.evaluator21
    = Some [[0.5; 1; 1.5]; [0.5; 1; 1.5]]%float.
Proof. vm_compute. repeat split; reflexivity. Qed.

(** [checkParams] never looks past the first element of [params]. *)
Lemma checkParams_first_element_only (params params' : Vector) f ev :
  params !! 0 = params' !! 0 → checkParams params f ev = checkParams params' f ev.
Proof. intros Hfirst. unfold checkParams. rewrite Hfirst. done. Qed.

Lemma checkParamsTraced_checkParams params f ev :
  fst <$> checkParamsTraced params f ev = checkParams params f ev.
Proof.
  unfold checkParamsTraced, checkParams. destruct (_dirty f); [reflexivity|].
  destruct (compareSegment (getLinearParameterSize ev) _ _ _) as [[dirty|]|];
    [reflexivity| |reflexivity].
  bind_step.
  destruct (compareSegment (getNonlinearParameterSize ev) _ _ _) as [[dirty|]|];
    reflexivity.
Qed.










(** ** The fitters *)

(** C7. An initial-error vector whose length is not nLinear + nNonlinear makes
    both fitters throw the invalid-parameter exception. The exit does not
    depend on the minimizer, which is not built yet, nothing is written to
    [std::cerr], and the evaluator is the one that was passed in. *)
Theorem apply_rejects_wrong_error_vector_length
    (minuit : Minuit2) (policy : Policy) (evaluator : ModelEvaluator)
    (initialErrors : Vector) :
  length initialErrors
  ≠ getLinearParameterSize evaluator + getNonlinearParameterSize evaluator →
  MinuitAnalyticFitter_apply minuit policy evaluator initialErrors
  = Some (mkExit (inl lengthMismatch) evaluator [])
  ∧ MinuitNumericFitter_apply minuit policy evaluator initialErrors
    = Some (mkExit (inl lengthMismatch) evaluator []).
Proof.
  intros Hlen. unfold MinuitAnalyticFitter_apply, MinuitNumericFitter_apply.
  rewrite !decide_True by congruence. done.
Qed.

Lemma apply_rejects_wrong_error_vector_length_witness :
  MinuitAnalyticFitter_apply Sample.minuit (Sample.policy true) Sample.evaluator12
    [1; 1]%float
  = Some (mkExit (inl lengthMismatch) Sample.evaluator12 [])
  ∧ MinuitNumericFitter_apply Sample.minuit (Sample.policy true) Sample.evaluator12
      [1; 1]%float
    = Some (mkExit (inl lengthMismatch) Sample.evaluator12 []).
Proof.
  apply (apply_rejects_wrong_error_vector_length Sample.minuit (Sample.policy true)
           Sample.evaluator12 [1; 1]%float).
  vm_compute. lia.
Defined.


Lemma commaInitialize_Some size coefficients v :
  commaInitialize size coefficients = Some v → v = coefficients ∧ length v = size.
Proof. unfold commaInitialize. destruct (decide _); [|done]. intros [= <-]. done. Qed.



(** * Further properties of the evaluator *)

(** ** Weighting of the cached products *)

(** X1. On an initialized evaluator whose MODEL_IMAGE flag is clear,
    [computeModelImage] leaves the projections' raw intensities in
    [_modelImageBuffer] and returns, pixel by pixel, the raw intensity divided
    by the pixel's sigma; the vector has one entry per pixel. *)
Theorem computeModelImage_weights_by_sigma (ev : ModelEvaluator) :
  initialized ev → validProduct ev MODEL_IMAGE = false →
  _modelImageBuffer (computeModelImage ev).1
  = rawModelImage (_model ev) (_projectionList ev)
  ∧ length (computeModelImage ev).2 = getNPixels ev
  ∧ (∀ k raw s,
       _modelImageBuffer (computeModelImage ev).1 !! k = Some raw →
       _sigma ev !! k = Some s →
       (computeModelImage ev).2 !! k = Some (PrimFloat.div raw s)).
Proof.
  intros Hinit Hvalid. rewrite computeModelImage_fresh by done.
  cbn [fst snd]. unfold evaluatorAfterModelImage. cbn [_modelImageBuffer withModelImage].
  split; [done|]. split.
  - rewrite length_modelImageAt by apply Hinit. unfold getNPixels.
    symmetry. apply Hinit.
  - intros k raw s Hraw Hs. unfold modelImageAt, cwiseQuotient.
    rewrite lookup_zip_with, Hraw, Hs. done.
Qed.

Lemma computeModelImage_weights_by_sigma_witness :
  (computeModelImage Sample.evaluator11).2 !! 6 = Some (PrimFloat.div 2.5 2)%float.
Proof.
  destruct (computeModelImage_weights_by_sigma Sample.evaluator11) as (_ & _ & Hpoint).
  - apply setExposureList_initialized. vm_compute. split; reflexivity.
  - vm_compute. reflexivity.
  - apply Hpoint; vm_compute; reflexivity.
Defined.

(** X2. On an initialized evaluator whose LINEAR_PARAMETER_DERIVATIVE flag is
    clear, [computeLinearParameterDerivative] returns: the buffer holds the
    raw derivative, the matrix has one column per linear parameter and every
    column is the raw column divided by sigma. *)
Theorem computeLinearParameterDerivative_weights_every_column (ev : ModelEvaluator) :
  initialized ev → validProduct ev LINEAR_PARAMETER_DERIVATIVE = false →
  ∃ ev' derivative,
    computeLinearParameterDerivative ev = Some (ev', derivative)
    ∧ _linearDerivativeBuffer ev' = rawLinearDerivative (_model ev) (_projectionList ev)
    ∧ length derivative = getLinearParameterSize ev
    ∧ (∀ i rawColumn,
         _linearDerivativeBuffer ev' !! i = Some rawColumn →
         derivative !! i = Some (cwiseQuotient rawColumn (_sigma ev))).
Proof.
  intros Hinit Hvalid. rewrite computeLinearParameterDerivative_fresh by done.
  eexists _, _. split; [done|].
  unfold evaluatorAfterLinearDerivative.
  cbn [_linearDerivativeBuffer withLinearDerivative].
  split; [done|]. split.
  - unfold linearDerivativeAt. rewrite length_fmap. apply length_rawLinearDerivative.
  - intros i rawColumn Hraw. unfold linearDerivativeAt.
    rewrite list_lookup_fmap, Hraw. done.
Qed.

Lemma computeLinearParameterDerivative_weights_every_column_witness :
  ∃ ev' derivative,
    computeLinearParameterDerivative Sample.evaluator21 = Some (ev', derivative)
    ∧ length derivative = 2
    ∧ derivative !! 1 = Some (cwiseQuotient [1; 2; 3]%float (_sigma Sample.evaluator21)).
Proof.
  destruct (computeLinearParameterDerivative_weights_every_column Sample.evaluator21)
    as (ev' & derivative & Heq & Hbuffer & Hlen & Hcolumns).
  - apply setExposureList_initialized. vm_compute. split; reflexivity.
  - vm_compute. reflexivity.
  - exists ev', derivative. split; [exact Heq|]. split; [exact Hlen|].
    apply Hcolumns. rewrite Hbuffer. vm_compute. reflexivity.
Defined.

(** X3. On an initialized evaluator whose NONLINEAR_PARAMETER_DERIVATIVE flag
    is clear, [computeNonlinearParameterDerivative] divides by sigma the
    columns whose index is below the number of linear parameters and returns
    the other columns raw; with more linear than nonlinear parameters its
    column loop leaves the matrix and there is no result. With as many
    linear as nonlinear parameters every column is divided. *)
Theorem computeNonlinearParameterDerivative_weights_first_columns (ev : ModelEvaluator) :
  initialized ev → validProduct ev NONLINEAR_PARAMETER_DERIVATIVE = false →
  (getLinearParameterSize ev ≤ getNonlinearParameterSize ev →
   ∃ ev' derivative,
     computeNonlinearParameterDerivative ev = Some (ev', derivative)
     ∧ _nonlinearDerivativeBuffer ev'
       = rawNonlinearDerivative (_model ev) (_projectionList ev)
     ∧ length derivative = getNonlinearParameterSize ev
     ∧ (∀ i rawColumn,
          _nonlinearDerivativeBuffer ev' !! i = Some rawColumn →
          derivative !! i
          = Some (if bool_decide (i < getLinearParameterSize ev)
                  then cwiseQuotient rawColumn (_sigma ev) else rawColumn)))
  ∧ (getNonlinearParameterSize ev < getLinearParameterSize ev →
     computeNonlinearParameterDerivative ev = None).
Proof.
  intros Hinit Hvalid. rewrite computeNonlinearParameterDerivative_fresh by done.
  unfold nonlinearDerivativeAt, getLinearParameterSize, getNonlinearParameterSize.
  split.
  - intros Hsizes. rewrite decide_True by done. bind_step.
    eexists _, _. split; [done|].
    unfold evaluatorAfterNonlinearDerivative.
    cbn [_nonlinearDerivativeBuffer withNonlinearDerivative].
    split; [done|]. split.
    + unfold divideFirstColumns. rewrite length_imap. apply length_rawNonlinearDerivative.
    + intros i rawColumn Hraw. unfold divideFirstColumns.
      rewrite list_lookup_imap, Hraw. done.
  - intros Hsizes. rewrite decide_False by lia. done.
Qed.

Lemma computeNonlinearParameterDerivative_weights_first_columns_witness :
  (∃ ev' derivative,
     computeNonlinearParameterDerivative Sample.evaluator12 = Some (ev', derivative)
     ∧ derivative !! 0 = Some (cwiseQuotient [8; 8; 8]%float (_sigma Sample.evaluator12))
     ∧ derivative !! 1 = Some [8; 8; 8]%float)
  ∧ computeNonlinearParameterDerivative Sample.evaluator21 = None.
Proof.
  split.
  - destruct (computeNonlinearParameterDerivative_weights_first_columns Sample.evaluator12)
      as [Hdefined _].
    + apply setExposureList_initialized. vm_compute. split; reflexivity.
    + vm_compute. reflexivity.
    + destruct Hdefined as (ev' & derivative & Heq & Hbuffer & _ & Hcolumns);
        [vm_compute; lia|].
      exists ev', derivative. split; [exact Heq|]. split.
      * apply (Hcolumns 0). rewrite Hbuffer. vm_compute. reflexivity.
      * apply (Hcolumns 1). rewrite Hbuffer. vm_compute. reflexivity.
  - destruct (computeNonlinearParameterDerivative_weights_first_columns Sample.evaluator21)
      as [_ Hnone].
    + apply setExposureList_initialized. vm_compute. split; reflexivity.
    + vm_compute. reflexivity.
    + apply Hnone. vm_compute. lia.
Defined.

(** ** Caching *)

Lemma computeLinearParameterDerivative_again ev ev' derivative :
  computeLinearParameterDerivative ev = Some (ev', derivative) →
  computeLinearParameterDerivative ev' = Some (ev', derivative).
Proof.
  unfold computeLinearParameterDerivative at 1.
  destruct (validProduct ev LINEAR_PARAMETER_DERIVATIVE) eqn:Hvalid; cbn [negb].
  - intros [= <- <-]. unfold computeLinearParameterDerivative. rewrite Hvalid. reflexivity.
  - destruct (divideColumns _ _ _ _) as [d|]; bind_step; [|done]. intros [= <- <-].
    unfold computeLinearParameterDerivative, validProduct.
    cbn [_validProducts withLinearDerivative].
    rewrite validProduct_lor_same by (vm_compute; discriminate). reflexivity.
Qed.

Lemma computeNonlinearParameterDerivative_again ev ev' derivative :
  computeNonlinearParameterDerivative ev = Some (ev', derivative) →
  computeNonlinearParameterDerivative ev' = Some (ev', derivative).
Proof.
  unfold computeNonlinearParameterDerivative at 1.
  destruct (validProduct ev NONLINEAR_PARAMETER_DERIVATIVE) eqn:Hvalid; cbn [negb].
  - intros [= <- <-]. unfold computeNonlinearParameterDerivative. rewrite Hvalid.
    reflexivity.
  - destruct (divideColumns _ _ _ _) as [d|]; bind_step; [|done]. intros [= <- <-].
    unfold computeNonlinearParameterDerivative, validProduct.
    cbn [_validProducts withNonlinearDerivative].
    rewrite validProduct_lor_same by (vm_compute; discriminate). reflexivity.
Qed.

(** X4. Each of the three compute functions, called again on the evaluator it
    left, returns the same product and leaves that evaluator as it is: a
    second call is a cache hit. Where the derivative's column loop fails, it
    fails in the first call. *)
Theorem compute_functions_are_idempotent (ev : ModelEvaluator) :
  computeModelImage (computeModelImage ev).1 = computeModelImage ev
  ∧ (computeLinearParameterDerivative ev
     ≫= λ r, computeLinearParameterDerivative r.1)
    = computeLinearParameterDerivative ev
  ∧ (computeNonlinearParameterDerivative ev
     ≫= λ r, computeNonlinearParameterDerivative r.1)
    = computeNonlinearParameterDerivative ev.
Proof.
  split; [|split].
  - destruct (validProduct ev MODEL_IMAGE) eqn:Hvalid.
    + rewrite (computeModelImage_cached ev Hvalid). cbn [fst].
      apply computeModelImage_cached, Hvalid.
    + unfold computeModelImage at 2 3. rewrite Hvalid. cbn [negb fst].
      rewrite computeModelImage_cached; [reflexivity|].
      unfold validProduct. cbn [_validProducts withModelImage].
      apply validProduct_lor_same. vm_compute. discriminate.
  - destruct (computeLinearParameterDerivative ev) as [[ev' d]|] eqn:Hfirst;
      bind_step; [|done]. cbn [fst].
    apply (computeLinearParameterDerivative_again ev), Hfirst.
  - destruct (computeNonlinearParameterDerivative ev) as [[ev' d]|] eqn:Hfirst;
      bind_step; [|done]. cbn [fst].
    apply (computeNonlinearParameterDerivative_again ev), Hfirst.
Qed.

(** X5. [computeLinearParameterDerivative] sets its own flag and no other,
    and writes neither the model image nor the nonlinear derivative (buffer
    and cached product); [computeNonlinearParameterDerivative] likewise
    leaves the model image and the linear derivative alone. Neither touches
    the model, the projections, the data or sigma. *)
Theorem derivative_functions_touch_only_their_product (ev : ModelEvaluator) :
  (∀ ev' derivative,
     computeLinearParameterDerivative ev = Some (ev', derivative) →
     validProduct ev' LINEAR_PARAMETER_DERIVATIVE = true
     ∧ validProduct ev' MODEL_IMAGE = validProduct ev MODEL_IMAGE
     ∧ validProduct ev' NONLINEAR_PARAMETER_DERIVATIVE
       = validProduct ev NONLINEAR_PARAMETER_DERIVATIVE
     ∧ _modelImageBuffer ev' = _modelImageBuffer ev
     ∧ _modelImage ev' = _modelImage ev
     ∧ _nonlinearDerivativeBuffer ev' = _nonlinearDerivativeBuffer ev
     ∧ _nonlinearDerivative ev' = _nonlinearDerivative ev
     ∧ derivative = _linearDerivative ev'
     ∧ sameFrames ev ev' ∧ _dataVector ev' = _dataVector ev)
  ∧ (∀ ev' derivative,
       computeNonlinearParameterDerivative ev = Some (ev', derivative) →
       validProduct ev' NONLINEAR_PARAMETER_DERIVATIVE = true
       ∧ validProduct ev' MODEL_IMAGE = validProduct ev MODEL_IMAGE
       ∧ validProduct ev' LINEAR_PARAMETER_DERIVATIVE
         = validProduct ev LINEAR_PARAMETER_DERIVATIVE
       ∧ _modelImageBuffer ev' = _modelImageBuffer ev
       ∧ _modelImage ev' = _modelImage ev
       ∧ _linearDerivativeBuffer ev' = _linearDerivativeBuffer ev
       ∧ _linearDerivative ev' = _linearDerivative ev
       ∧ derivative = _nonlinearDerivative ev'
       ∧ sameFrames ev ev' ∧ _dataVector ev' = _dataVector ev).
Proof.
  split; intros ev' derivative.
  - unfold computeLinearParameterDerivative.
    destruct (validProduct ev LINEAR_PARAMETER_DERIVATIVE) eqn:Hvalid; cbn [negb].
    + intros [= <- <-]. split_and!; done.
    + destruct (divideColumns _ _ _ _) as [d|]; bind_step; [|done].
      intros [= <- <-]. unfold validProduct, sameFrames.
      cbn [_validProducts withLinearDerivative].
      rewrite validProduct_lor_same by (vm_compute; discriminate).
      rewrite !validProduct_lor_other by (vm_compute; reflexivity). split_and!; done.
  - unfold computeNonlinearParameterDerivative.
    destruct (validProduct ev NONLINEAR_PARAMETER_DERIVATIVE) eqn:Hvalid; cbn [negb].
    + intros [= <- <-]. split_and!; done.
    + destruct (divideColumns _ _ _ _) as [d|]; bind_step; [|done].
      intros [= <- <-]. unfold validProduct, sameFrames.
      cbn [_validProducts withNonlinearDerivative].
      rewrite validProduct_lor_same by (vm_compute; discriminate).
      rewrite !validProduct_lor_other by (vm_compute; reflexivity). split_and!; done.
Qed.

(** ** Frame-set assignment *)

(** X6. [setExposureList] keeps the model and the threshold, clears every
    validity flag whatever was valid before, sizes the two derivative buffers
    with one row per linear, respectively nonlinear, parameter, and sets
    sigma to the square root of the new variance vector, entry by entry. The
    cached [Eigen] products are not reset: they are the stale ones, behind
    cleared flags. *)
Theorem setExposureList_resets_products (exposureList : list Exposure) (ev : ModelEvaluator) :
  let ev' := setExposureList exposureList ev in
  _model ev' = _model ev
  ∧ _nMinPix ev' = _nMinPix ev
  ∧ _validProducts ev' = 0%Z
  ∧ validProduct ev' MODEL_IMAGE = false
  ∧ validProduct ev' LINEAR_PARAMETER_DERIVATIVE = false
  ∧ validProduct ev' NONLINEAR_PARAMETER_DERIVATIVE = false
  ∧ length (_linearDerivativeBuffer ev') = getLinearParameterSize ev
  ∧ length (_nonlinearDerivativeBuffer ev') = getNonlinearParameterSize ev
  ∧ _sigma ev' = cwiseSqrt (_varianceVector ev')
  ∧ length (_sigma ev') = getNPixels ev'
  ∧ _modelImage ev' = _modelImage ev
  ∧ _linearDerivative ev' = _linearDerivative ev
  ∧ _nonlinearDerivative ev' = _nonlinearDerivative ev.
Proof.
  intros ev'. destruct (setExposureList_spec exposureList ev) as (ps & Heq & _ & Hn & _).
  subst ev'. rewrite Heq. unfold validProduct, getNPixels, allocate2, cwiseSqrt.
  cbn [_model _nMinPix _validProducts _linearDerivativeBuffer _nonlinearDerivativeBuffer
       _sigma _varianceVector _dataVector _modelImage _linearDerivative
       _nonlinearDerivative].
  rewrite !length_replicate, length_fmap.
  split_and!; try done.
  set (good := filter _ exposureList). clear.
  induction good as [|x r IHr]; [done|].
  rewrite !bind_cons, !length_app, !length_fmap, IHr. done.
Qed.

(** X7. Assigning a frame set forgets the one assigned before: the evaluator
    after two assignments in a row is the evaluator after the second alone. *)
Theorem setExposureList_forgets_previous_frames
    (first second : list Exposure) (ev : ModelEvaluator) :
  setExposureList second (setExposureList first ev) = setExposureList second ev.
Proof.
  destruct (setExposureList_spec first ev) as (ps & Heq & _).
  rewrite Heq. done.
Qed.

(** X8. When no exposure has more pixels than the threshold, in particular
    when the list is empty, the evaluator has no projection and no pixel, the
    model image is empty, and the objective of an adapter built on it is 0
    for every parameter vector that holds the model's parameters. *)
Theorem setExposureList_without_accepted_frame
    (exposureList : list Exposure) (ev : ModelEvaluator) (params : Vector) :
  Forall (λ e, ¬ aboveThreshold (_nMinPix ev) e) exposureList →
  consistentModel (_model ev) →
  getLinearParameterSize ev + getNonlinearParameterSize ev ≤ length params →
  let ev' := setExposureList exposureList ev in
  _projectionList ev' = []
  ∧ getNPixels ev' = 0
  ∧ (computeModelImage ev').2 = []
  ∧ (λ r, r.1.1) <$> computeValue params (newChisqFunction ev') ev' = Some 0%float.
Proof.
  intros Hnone Hmodel Hlen ev'.
  pose proof (setExposureList_initialized exposureList ev Hmodel) as Hinit.
  destruct (setExposureList_spec exposureList ev) as (ps & Heq & _ & Hn & _).
  assert (filter (aboveThreshold (_nMinPix ev)) exposureList = []) as Hgood.
  { clear -Hnone. induction Hnone as [|e l He _ IH]; [done|].
    rewrite filter_cons_False by done. exact IH. }
  rewrite Hgood in Heq, Hn. destruct ps as [|p ps]; [|done]. clear Hn.
  fold ev' in Hinit, Heq.
  assert (_projectionList ev' = []) as Hprojections by (rewrite Heq; done).
  assert (getNPixels ev' = 0) as Hpixels by (unfold getNPixels; rewrite Heq; done).
  assert ((computeModelImage ev').2 = []) as Himage.
  { rewrite computeModelImage_fresh; [|done|rewrite Heq; done].
    cbn [snd]. rewrite Hprojections. done. }
  split; [done|]. split; [done|]. split; [done|].
  rewrite computeValue_dirty by done.
  rewrite decide_True by (rewrite Heq; exact Hlen).
  rewrite Hprojections.
  assert (_measured (newChisqFunction ev') = []) as ->.
  { rewrite Heq. done. }
  done.
Qed.

Lemma setExposureList_without_accepted_frame_witness :
  _projectionList Sample.evaluatorNoFrame = []
  ∧ getNPixels Sample.evaluatorNoFrame = 0
  ∧ (computeModelImage Sample.evaluatorNoFrame).2 = []
  ∧ (λ r, r.1.1) <$> computeValue [3; 0.25]%float
                       (newChisqFunction Sample.evaluatorNoFrame) Sample.evaluatorNoFrame
    = Some 0%float.
Proof.
  apply (setExposureList_without_accepted_frame [Sample.frameC]
           (Sample.blank Sample.model11) [3; 0.25]%float).
  - repeat constructor. vm_compute. intros Hgt. discriminate Hgt.
  - vm_compute. split; reflexivity.
  - vm_compute. lia.
Defined.

(** ** Buffer ranges *)

Lemma lookup_bind_contiguous (values : ModelProjection → nat → Pixel)
    start projections i p j :
  contiguousFrom start projections →
  projections !! i = Some p → j < footprintNpix p →
  (projections ≫= λ q, values q <$> seq 0 (footprintNpix q))
    !! (pixelStart (modelImageBuffer p) - start + j)
  = Some (values p j).
Proof.
  revert start i. induction projections as [|q rest IH]; intros start i Hcont Hi Hj; [done|].
  destruct Hcont as [(Hview & _ & _) Hrest]. rewrite bind_cons.
  destruct i as [|i]; simpl in Hi.
  - injection Hi as ->. rewrite Hview. cbn [pixelStart].
    replace (start - start + j) with j by lia.
    rewrite lookup_app_l by (rewrite length_fmap, length_seq; done).
    rewrite list_lookup_fmap, lookup_seq_lt by done. done.
  - pose proof (contiguousFrom_within _ _ p Hrest (list_elem_of_lookup_2 _ _ _ Hi))
      as [Hlo _].
    rewrite lookup_app_r by (rewrite length_fmap, length_seq; lia).
    rewrite length_fmap, length_seq.
    replace (pixelStart (modelImageBuffer p) - start + j - footprintNpix q)
      with (pixelStart (modelImageBuffer p) - (start + footprintNpix q) + j) by lia.
    by apply (IH _ i).
Qed.

(** X9. After [computeModelImage] on an initialized evaluator, the range of
    the model-image buffer handed to a projection holds that projection's
    intensities: entry [pixelStart + j] is the projection's value at its
    pixel [j], for every pixel of its footprint. *)
Theorem computeModelImage_fills_each_range
    (ev : ModelEvaluator) (i : nat) (p : ModelProjection) (j : nat) :
  initialized ev → validProduct ev MODEL_IMAGE = false →
  _projectionList ev !! i = Some p → j < footprintNpix p →
  in_view (modelImageBuffer p) (pixelStart (modelImageBuffer p) + j)
  ∧ _modelImageBuffer (computeModelImage ev).1 !! (pixelStart (modelImageBuffer p) + j)
    = Some (kernelModelImage (kernel p) (_model ev) j).
Proof.
  intros Hinit Hvalid Hi Hj. split.
  - pose proof (init_views _ Hinit) as Hcont. clear -Hcont Hi Hj.
    revert Hcont Hi. generalize 0. revert i.
    induction (_projectionList ev) as [|q rest IH]; intros i start Hcont Hi; [done|].
    destruct Hcont as [(Hview & _ & _) Hrest]. destruct i as [|i]; simpl in Hi.
    + injection Hi as ->. rewrite Hview. unfold in_view. cbn [pixelStart pixelEnd]. lia.
    + by apply (IH i _ Hrest).
  - rewrite computeModelImage_fresh by done. cbn [fst].
    unfold evaluatorAfterModelImage. cbn [_modelImageBuffer withModelImage].
    unfold rawModelImage.
    rewrite <- (lookup_bind_contiguous (λ q, kernelModelImage (kernel q) (_model ev))
                 0 (_projectionList ev) i p j (init_views _ Hinit) Hi Hj).
    f_equal. lia.
Qed.

Lemma computeModelImage_fills_each_range_witness :
  _modelImageBuffer (computeModelImage Sample.evaluator11).1 !! (5 + 2)
  = Some (kernelModelImage Sample.kern Sample.model11 2).
Proof.
  apply (computeModelImage_fills_each_range Sample.evaluator11 1
           (mkProjection 3 Sample.kern (mkView 5 8) (mkView 5 8) (mkView 5 8)) 2).
  - apply setExposureList_initialized. vm_compute. split; reflexivity.
  - vm_compute. reflexivity.
  - vm_compute. reflexivity.
  - vm_compute. lia.
Defined.

(** ** The adapter's flag and the evaluator it leaves *)

Lemma computeValue_keeps_flag params f ev value f' ev' :
  _dirty f = true → computeValue params f ev = Some (value, f', ev') → f' = f.
Proof.
  intros Hdirty. unfold computeValue. rewrite checkParams_dirty by done. bind_step.
  destruct (pushParams _ _ _) as [ev1|]; bind_step; [|done].
  destruct (computeModelImage ev1) as [ev2 modeled].
  destruct (vectorDifference _ _); bind_step; [|done]. by intros [= _ <- _].
Qed.

Lemma computeGradient_keeps_flag params f ev gradient f' ev' :
  _dirty f = true → computeGradient params f ev = Some (gradient, f', ev') →
  f' = f ∧ length gradient = length params.
Proof.
  intros Hdirty. unfold computeGradient. rewrite checkParams_dirty by done. bind_step.
  destruct (pushParams _ _ _) as [ev1|]; bind_step; [|done].
  destruct (computeModelImage ev1) as [ev2 modeled].
  destruct (vectorDifference _ _); bind_step; [|done].
  destruct (computeLinearParameterDerivative ev2) as [[ev3 lpd]|]; bind_step; [|done].
  destruct (computeNonlinearParameterDerivative ev3) as [[ev4 npd]|]; bind_step; [|done].
  destruct (commaInitialize _ _) as [g|] eqn:Hg; bind_step; [|done].
  apply commaInitialize_Some in Hg as [_ Hlen]. by intros [= <- <- _].
Qed.

(** X10. The adapter's flag starts set and nothing clears it: [checkParams]
    returns at its guard, and whatever calls of [operator()] and [Gradient] a
    minimizer makes, on whatever evaluator, the adapter it leaves is the one
    that was constructed. Every call therefore pushes its parameters into
    the evaluator. *)
Theorem adapter_flag_is_never_cleared {R : Type}
    (c : GradientFcnClient R) (ev0 ev : ModelEvaluator)
    (r : R) (f' : ChisqFunction) (ev' : ModelEvaluator) :
  runGradientFcn c (newChisqFunction ev0) ev = Some (r, f', ev') →
  f' = newChisqFunction ev0 ∧ _dirty f' = true.
Proof.
  intros Hrun. cut (f' = newChisqFunction ev0); [by intros ->|].
  revert ev Hrun. generalize (eq_refl : _dirty (newChisqFunction ev0) = true).
  generalize (newChisqFunction ev0). intros f Hdirty.
  induction c as [r0|params k IH|params k IH]; intros ev; simpl.
  - by intros [= _ <- _].
  - destruct (computeValue params f ev) as [[[value f1] ev1]|] eqn:Hcall; bind_step;
      [|done].
    apply computeValue_keeps_flag in Hcall as ->; [|done]. apply IH.
  - destruct (computeGradient params f ev) as [[[gradient f1] ev1]|] eqn:Hcall;
      bind_step; [|done].
    apply computeGradient_keeps_flag in Hcall as [-> _]; [|done]. apply IH.
Qed.

Lemma adapter_flag_is_never_cleared_witness :
  ∃ r ev',
    runGradientFcn (Sample.probe [3; 0.25]%float) (newChisqFunction Sample.evaluator11)
      Sample.evaluator11
    = Some (r, newChisqFunction Sample.evaluator11, ev').
Proof.
  destruct (runGradientFcn (Sample.probe [3; 0.25]%float)
              (newChisqFunction Sample.evaluator11) Sample.evaluator11)
    as [[[r f'] ev']|] eqn:Hrun.
  - destruct (adapter_flag_is_never_cleared _ _ _ _ _ _ Hrun) as [-> _].
    exists r, ev'. reflexivity.
  - exfalso. vm_compute in Hrun. discriminate Hrun.
Defined.

(** X11. What the adapter leaves in an initialized evaluator. After
    [value(p)] the model holds the two segments of [p] and the model image is
    the only valid product. After [gradient(p)] the model holds them too and
    all three products are valid, so each compute function then answers from
    its cache without changing the evaluator. *)
Theorem adapter_calls_leave_products_of_their_parameters
    (params : Vector) (f : ChisqFunction) (ev : ModelEvaluator) :
  initialized ev → _dirty f = true →
  (∀ value f' ev',
     computeValue params f ev = Some (value, f', ev') →
     getLinearParameters ev' = take (getLinearParameterSize ev) params
     ∧ getNonlinearParameters ev'
       = take (getNonlinearParameterSize ev) (drop (getLinearParameterSize ev) params)
     ∧ _validProducts ev' = MODEL_IMAGE
     ∧ computeModelImage ev' = (ev', _modelImage ev'))
  ∧ (∀ gradient f' ev',
       computeGradient params f ev = Some (gradient, f', ev') →
       getLinearParameters ev' = take (getLinearParameterSize ev) params
       ∧ getNonlinearParameters ev'
         = take (getNonlinearParameterSize ev) (drop (getLinearParameterSize ev) params)
       ∧ _validProducts ev'
         = Z.lor (Z.lor MODEL_IMAGE LINEAR_PARAMETER_DERIVATIVE)
             NONLINEAR_PARAMETER_DERIVATIVE
       ∧ computeModelImage ev' = (ev', _modelImage ev')
       ∧ computeLinearParameterDerivative ev' = Some (ev', _linearDerivative ev')
       ∧ computeNonlinearParameterDerivative ev' = Some (ev', _nonlinearDerivative ev')).
Proof.
  intros Hinit Hdirty. split.
  - intros value f' ev' Hcall.
    apply computeValue_keeps_adapter in Hcall as (_ & -> & _); [|done|done].
    split_and!; reflexivity.
  - intros gradient f' ev' Hcall.
    apply computeGradient_keeps_adapter in Hcall as (_ & -> & _); [|done|done].
    split_and!; reflexivity.
Qed.

Lemma adapter_calls_leave_products_of_their_parameters_witness :
  ∃ gradient f' ev',
    computeGradient [3; 0.25]%float (newChisqFunction Sample.evaluator11)
      Sample.evaluator11 = Some (gradient, f', ev')
    ∧ getLinearParameters ev' = [3%float]
    ∧ getNonlinearParameters ev' = [0.25%float]
    ∧ _validProducts ev' = 7%Z
    ∧ computeLinearParameterDerivative ev' = Some (ev', _linearDerivative ev').
Proof.
  assert (initialized Sample.evaluator11) as Hinit.
  { apply setExposureList_initialized. vm_compute. split; reflexivity. }
  destruct (computeGradient [3; 0.25]%float (newChisqFunction Sample.evaluator11)
              Sample.evaluator11) as [[[gradient f'] ev']|] eqn:Hcall.
  - destruct (proj2 (adapter_calls_leave_products_of_their_parameters [3; 0.25]%float
                       (newChisqFunction Sample.evaluator11) Sample.evaluator11
                       Hinit eq_refl) _ _ _ Hcall)
      as (Hlinear & Hnonlinear & Hflags & _ & Hcached & _).
    exists gradient, f', ev'. split; [reflexivity|].
    split; [exact Hlinear|]. split; [exact Hnonlinear|]. split; [exact Hflags|].
    exact Hcached.
  - exfalso. vm_compute in Hcall. discriminate Hcall.
Defined.

(** X12. [value] reads the first nLinear + nNonlinear entries of its argument
    and nothing after them: entries appended to a parameter vector change
    neither the value nor the evaluator left behind. *)
Theorem computeValue_ignores_trailing_entries
    (params tail : Vector) (f : ChisqFunction) (ev : ModelEvaluator) :
  initialized ev → _dirty f = true →
  getLinearParameterSize ev + getNonlinearParameterSize ev ≤ length params →
  computeValue (params ++ tail) f ev = computeValue params f ev.
Proof.
  intros Hinit Hdirty Hlen. rewrite !computeValue_dirty by done.
  rewrite !decide_True by (rewrite ?length_app; lia).
  assert (pushedModel (params ++ tail) (_model ev) = pushedModel params (_model ev))
    as Hmodel.
  { unfold pushedModel, getLinearParameterSize, getNonlinearParameterSize in *.
    rewrite take_app_le by lia. rewrite drop_app_le by lia.
    rewrite take_app_le by (rewrite length_drop; lia). done. }
  unfold evaluatorAfterValue, evaluatorAfterPush. rewrite Hmodel. done.
Qed.

Lemma computeValue_ignores_trailing_entries_witness :
  computeValue ([3; 0.25] ++ [7; 9])%float (newChisqFunction Sample.evaluator11)
    Sample.evaluator11
  = computeValue [3; 0.25]%float (newChisqFunction Sample.evaluator11) Sample.evaluator11.
Proof.
  apply computeValue_ignores_trailing_entries.
  - apply setExposureList_initialized. vm_compute. split; reflexivity.
  - reflexivity.
  - vm_compute. lia.
Defined.

(** X13. [gradient] has a result only for a parameter vector of exactly
    nLinear + nNonlinear entries, and the gradient it returns has one entry
    per parameter. *)
Theorem computeGradient_needs_exact_length
    (params : Vector) (f : ChisqFunction) (ev : ModelEvaluator) :
  initialized ev → _dirty f = true →
  (length params ≠ getLinearParameterSize ev + getNonlinearParameterSize ev →
   computeGradient params f ev = None)
  ∧ (∀ gradient f' ev',
       computeGradient params f ev = Some (gradient, f', ev') →
       length gradient = getLinearParameterSize ev + getNonlinearParameterSize ev).
Proof.
  intros Hinit Hdirty. split.
  - intros Hlen. rewrite computeGradient_dirty by done. by rewrite decide_False.
  - intros gradient f' ev' Hcall.
    destruct (computeGradient_keeps_flag _ _ _ _ _ _ Hdirty Hcall) as [_ ->].
    by apply computeGradient_keeps_adapter in Hcall as (_ & _ & ?).
Qed.

Lemma computeGradient_needs_exact_length_witness :
  computeGradient [3; 0.25; 7]%float (newChisqFunction Sample.evaluator11)
    Sample.evaluator11 = None
  ∧ ∃ gradient f' ev',
      computeGradient [3; 0.25]%float (newChisqFunction Sample.evaluator11)
        Sample.evaluator11 = Some (gradient, f', ev')
      ∧ length gradient = 2.
Proof.
  assert (initialized Sample.evaluator11) as Hinit.
  { apply setExposureList_initialized. vm_compute. split; reflexivity. }
  split.
  - apply (computeGradient_needs_exact_length [3; 0.25; 7]%float
             (newChisqFunction Sample.evaluator11) Sample.evaluator11 Hinit eq_refl).
    vm_compute. lia.
  - destruct (computeGradient [3; 0.25]%float (newChisqFunction Sample.evaluator11)
                Sample.evaluator11) as [[[gradient f'] ev']|] eqn:Hcall.
    + exists gradient, f', ev'. split; [reflexivity|].
      apply (proj2 (computeGradient_needs_exact_length [3; 0.25]%float
                      (newChisqFunction Sample.evaluator11) Sample.evaluator11
                      Hinit eq_refl) _ _ _ Hcall).
    + exfalso. vm_compute in Hcall. discriminate Hcall.
Defined.

(** X14. An adapter whose copy of the weighted data has another length than
    the evaluator's pixel count, as after a reassignment to a frame set of
    another size, has no value and no gradient: the residual is a difference
    of vectors of different sizes. *)
Theorem adapter_size_mismatch_has_no_result
    (params : Vector) (f : ChisqFunction) (ev : ModelEvaluator) :
  initialized ev → _dirty f = true →
  length (_measured f) ≠ getNPixels ev →
  computeValue params f ev = None ∧ computeGradient params f ev = None.
Proof.
  intros Hinit Hdirty Hsize.
  assert (∀ m, vectorDifference (_measured f)
                 (modelImageAt m (_projectionList ev) (_sigma ev)) = None) as Hnone.
  { intros m. unfold vectorDifference.
    rewrite decide_False; [done|].
    rewrite length_modelImageAt by apply Hinit.
    unfold getNPixels in Hsize. rewrite (init_data _ Hinit) in Hsize. done. }
  split.
  - rewrite computeValue_dirty by done. destruct (decide _); [|done].
    unfold valueAt. rewrite Hnone. done.
  - rewrite computeGradient_dirty by done. destruct (decide _); [|done].
    unfold gradientAt. rewrite Hnone. done.
Qed.

Lemma adapter_size_mismatch_has_no_result_witness :
  computeValue [3; 0.25]%float (newChisqFunction Sample.evaluator12) Sample.evaluator11
  = None
  ∧ computeGradient [3; 0.25]%float (newChisqFunction Sample.evaluator12)
      Sample.evaluator11 = None.
Proof.
  apply adapter_size_mismatch_has_no_result.
  - apply setExposureList_initialized. vm_compute. split; reflexivity.
  - reflexivity.
  - vm_compute. lia.
Defined.

(** ** What a fit leaves of the evaluator *)

Lemma runFcn_keeps_frames {R} (c : FcnClient R) f ev r f' ev' :
  initialized ev → _dirty f = true →
  runFcn c f ev = Some (r, f', ev') →
  initialized ev' ∧ sameSetup ev ev' ∧ sameData ev ev'.
Proof.
  revert ev. induction c as [r0|params k IH]; intros ev Hinit Hdirty; simpl.
  - intros [= _ _ <-]. done.
  - destruct (computeValue params f ev) as [[[value f1] ev1]|] eqn:Hcall; [|done].
    bind_step.
    apply computeValue_keeps_adapter in Hcall as (-> & -> & Hlen); [|done|done].
    intros Hrun. apply IH in Hrun as (Hinit' & Hsetup & Hdata);
      [|by apply initialized_afterValue|done].
    split; [done|]. split.
    + eapply sameSetup_trans; [apply (sameSetup_afterValue params)|done].
    + destruct Hdata as (Hd & Hv & Hn). unfold sameData. rewrite Hd, Hv, Hn. done.
Qed.

Lemma runGradientFcn_keeps_frames {R} (c : GradientFcnClient R) f ev r f' ev' :
  initialized ev → _dirty f = true →
  runGradientFcn c f ev = Some (r, f', ev') →
  initialized ev' ∧ sameSetup ev ev' ∧ sameData ev ev'.
Proof.
  revert ev. induction c as [r0|params k IH|params k IH]; intros ev Hinit Hdirty; simpl.
  - intros [= _ _ <-]. done.
  - destruct (computeValue params f ev) as [[[value f1] ev1]|] eqn:Hcall; [|done].
    bind_step.
    apply computeValue_keeps_adapter in Hcall as (-> & -> & Hlen); [|done|done].
    intros Hrun. apply IH in Hrun as (Hinit' & Hsetup & Hdata);
      [|by apply initialized_afterValue|done].
    split; [done|]. split.
    + eapply sameSetup_trans; [apply (sameSetup_afterValue params)|done].
    + destruct Hdata as (Hd & Hv & Hn). unfold sameData. rewrite Hd, Hv, Hn. done.
  - destruct (computeGradient params f ev) as [[[gradient f1] ev1]|] eqn:Hcall; [|done].
    bind_step.
    apply computeGradient_keeps_adapter in Hcall as (-> & -> & Hlen); [|done|done].
    intros Hrun. apply IH in Hrun as (Hinit' & Hsetup & Hdata);
      [|apply initialized_afterGradient; [done|lia]|done].
    split; [done|]. split.
    + eapply sameSetup_trans; [apply (sameSetup_afterGradient params)|done].
    + destruct Hdata as (Hd & Hv & Hn). unfold sameData. rewrite Hd, Hv, Hn. done.
Qed.

(** X15. Whatever the minimizer does, a call of either fitter that returns
    leaves the evaluator initialized over the frame set it had: the
    projections and their ranges, sigma, the data and variance vectors, the
    threshold and the dimensions of the model are those of the evaluator
    passed in. A fit changes parameter values and cached products only. *)
Theorem apply_keeps_the_frame_set
    (minuit : Minuit2) (policy : Policy) (evaluator : ModelEvaluator)
    (initialErrors : Vector) :
  initialized evaluator →
  (∀ exit,
     MinuitAnalyticFitter_apply minuit policy evaluator initialErrors = Some exit →
     initialized (evaluatorAfter exit)
     ∧ sameSetup evaluator (evaluatorAfter exit)
     ∧ sameData evaluator (evaluatorAfter exit))
  ∧ (∀ exit,
       MinuitNumericFitter_apply minuit policy evaluator initialErrors = Some exit →
       initialized (evaluatorAfter exit)
       ∧ sameSetup evaluator (evaluatorAfter exit)
       ∧ sameData evaluator (evaluatorAfter exit)).
Proof.
  intros Hinit.
  set (f := newChisqFunction evaluator).
  assert (_dirty f = true) as Hdirty by done.
  split; intros exit.
  - unfold MinuitAnalyticFitter_apply. fold f.
    destruct (decide _) as [Hbad|Hgood].
    { intros [= <-]. done. }
    destruct (commaInitialize _ _) as [initialParams|] eqn:Hparams; [|done].
    apply commaInitialize_Some in Hparams as [Hparams Hsize].
    bind_step.
    destruct (checkGradient policy).
    + destruct (computeValue initialParams f evaluator) as [[[fval f1] ev1]|] eqn:Hvalue;
        [|done].
      apply computeValue_keeps_adapter in Hvalue as (-> & -> & _); [|done|done].
      bind_step.
      assert (initialized (evaluatorAfterValue initialParams evaluator)) as Hinit1.
      { apply initialized_afterValue; [done|]. rewrite Hsize. done. }
      destruct (runFcn _ f _) as [[[numericGrad f2] ev2]|] eqn:Hnumeric; [|done].
      pose proof (runFcn_invariant _ _ _ _ _ _ Hinit1 Hdirty Hnumeric) as (-> & _ & _).
      apply runFcn_keeps_frames in Hnumeric as (Hinit2 & Hsetup2 & Hdata2);
        [|done|done].
      bind_step.
      destruct (computeGradient initialParams f ev2) as [[[analyticGrad f3] ev3]|]
        eqn:Hgradient; [|done].
      apply computeGradient_keeps_adapter in Hgradient as (-> & -> & Hlen3);
        [|done|done].
      bind_step.
      destruct (gradientReport _ _ _) as [lines|]; [|done]. bind_step.
      destruct (runGradientFcn _ f _) as [[[min f4] ev4]|] eqn:Hrun; [|done].
      apply runGradientFcn_keeps_frames in Hrun as (Hinit4 & Hsetup4 & Hdata4);
        [|apply initialized_afterGradient; [done|lia]|done].
      bind_step. intros [= <-]. cbn [evaluatorAfter].
      split; [done|]. split.
      * eapply sameSetup_trans; [|exact Hsetup4].
        eapply sameSetup_trans; [|apply (sameSetup_afterGradient initialParams ev2)].
        eapply sameSetup_trans; [apply (sameSetup_afterValue initialParams)|done].
      * destruct Hdata2 as (Hd2 & Hv2 & Hn2). destruct Hdata4 as (Hd4 & Hv4 & Hn4).
        unfold sameData. rewrite Hd4, Hv4, Hn4.
        change (_dataVector ev2 = _dataVector evaluator
                ∧ _varianceVector ev2 = _varianceVector evaluator
                ∧ _nMinPix ev2 = _nMinPix evaluator).
        rewrite Hd2, Hv2, Hn2. done.
    + bind_step.
      destruct (runGradientFcn _ f _) as [[[min f4] ev4]|] eqn:Hrun; [|done].
      apply runGradientFcn_keeps_frames in Hrun as (Hinit4 & Hsetup4 & Hdata4);
        [|done|done].
      bind_step. intros [= <-]. done.
  - unfold MinuitNumericFitter_apply. fold f.
    destruct (decide _) as [Hbad|Hgood].
    { intros [= <-]. done. }
    destruct (commaInitialize _ _) as [initialParams|]; [|done]. bind_step.
    destruct (runFcn _ f _) as [[[min f4] ev4]|] eqn:Hrun; [|done].
    apply runFcn_keeps_frames in Hrun as (Hinit4 & Hsetup4 & Hdata4); [|done|done].
    bind_step. intros [= <-]. done.
Qed.

Lemma apply_keeps_the_frame_set_witness :
  ∃ exit,
    MinuitAnalyticFitter_apply Sample.minuit (Sample.policy true) Sample.evaluator11
      [1; 1]%float = Some exit
    ∧ initialized (evaluatorAfter exit)
    ∧ sameSetup Sample.evaluator11 (evaluatorAfter exit)
    ∧ sameData Sample.evaluator11 (evaluatorAfter exit).
Proof.
  assert (initialized Sample.evaluator11) as Hinit.
  { apply setExposureList_initialized. vm_compute. split; reflexivity. }
  assert (is_Some (MinuitAnalyticFitter_apply Sample.minuit (Sample.policy true)
                     Sample.evaluator11 [1; 1]%float)) as [exit Hexit].
  { vm_compute. eexists. reflexivity. }
  exists exit. split; [exact Hexit|].
  exact (proj1 (apply_keeps_the_frame_set Sample.minuit (Sample.policy true)
                  Sample.evaluator11 [1; 1]%float Hinit) exit Hexit).
Defined.

Lemma derivativesUntouched_refl ev : derivativesUntouched ev ev.
Proof. unfold derivativesUntouched. split_and!; done. Qed.

Lemma derivativesUntouched_trans ev1 ev2 ev3 :
  derivativesUntouched ev1 ev2 → derivativesUntouched ev2 ev3 →
  derivativesUntouched ev1 ev3.
Proof.
  intros (H1 & H2 & H3 & H4 & H5 & H6) (G1 & G2 & G3 & G4 & G5 & G6).
  unfold derivativesUntouched. rewrite G1, G2, G3, G4. split_and!; auto.
Qed.

Lemma computeModelImage_derivativesUntouched ev :
  derivativesUntouched ev (computeModelImage ev).1.
Proof.
  unfold computeModelImage. destruct (validProduct ev MODEL_IMAGE); cbn [negb fst].
  - apply derivativesUntouched_refl.
  - unfold derivativesUntouched, validProduct. cbn.
    rewrite !validProduct_lor_other by (vm_compute; reflexivity). split_and!; done.
Qed.

Lemma withModel_derivativesUntouched m ev : derivativesUntouched ev (withModel m ev).
Proof. unfold derivativesUntouched, validProduct. cbn. split_and!; done. Qed.

(** [value] on any adapter and any evaluator: the derivative side of the
    evaluator is not written. *)
Lemma computeValue_derivativesUntouched params f ev value f' ev' :
  computeValue params f ev = Some (value, f', ev') → derivativesUntouched ev ev'.
Proof.
  unfold computeValue.
  destruct (checkParams params f ev) as [f1|]; bind_step; [|done].
  assert (∀ ev1, pushParams params f1 ev = Some ev1 → derivativesUntouched ev ev1)
    as Hpush.
  { intros ev1. unfold pushParams. destruct (_dirty f1).
    - unfold setLinearParameters, setNonlinearParameters.
      destruct (decide _); bind_step; [|done].
      destruct (decide _); [|done]. intros [= <-].
      eapply derivativesUntouched_trans; apply withModel_derivativesUntouched.
    - intros [= <-]. apply derivativesUntouched_refl. }
  destruct (pushParams params f1 ev) as [ev1|]; bind_step; [|done].
  specialize (Hpush ev1 eq_refl).
  pose proof (computeModelImage_derivativesUntouched ev1) as Himage.
  destruct (computeModelImage ev1) as [ev2 modeled]. cbn [fst] in Himage.
  destruct (vectorDifference _ _); bind_step; [|done]. intros [= _ _ <-].
  by eapply derivativesUntouched_trans.
Qed.

Lemma runFcn_derivativesUntouched {R} (c : FcnClient R) f ev r f' ev' :
  runFcn c f ev = Some (r, f', ev') → derivativesUntouched ev ev'.
Proof.
  revert f ev. induction c as [r0|params k IH]; intros f ev; simpl.
  - intros [= _ _ <-]. apply derivativesUntouched_refl.
  - destruct (computeValue params f ev) as [[[value f1] ev1]|] eqn:Hcall; bind_step;
      [|done].
    intros Hrun. eapply derivativesUntouched_trans.
    + by eapply computeValue_derivativesUntouched.
    + by eapply IH.
Qed.

(** X16. The numeric fitter never touches the derivative side of the
    evaluator, whatever the minimizer does: when its [apply] returns, the two
    derivative buffers and the two cached derivative matrices are the ones
    the evaluator had, and no derivative flag is set that was not set
    before. *)
Theorem numeric_fitter_leaves_derivatives_alone
    (minuit : Minuit2) (policy : Policy) (evaluator : ModelEvaluator)
    (initialErrors : Vector) (exit : ApplyExit minuit) :
  MinuitNumericFitter_apply minuit policy evaluator initialErrors = Some exit →
  derivativesUntouched evaluator (evaluatorAfter exit).
Proof.
  unfold MinuitNumericFitter_apply.
  destruct (decide _).
  { intros [= <-]. apply derivativesUntouched_refl. }
  destruct (commaInitialize _ _) as [initialParams|]; bind_step; [|done].
  destruct (runFcn _ _ _) as [[[min f'] ev']|] eqn:Hrun; bind_step; [|done].
  intros [= <-]. cbn [evaluatorAfter]. by eapply runFcn_derivativesUntouched.
Qed.

Lemma numeric_fitter_leaves_derivatives_alone_witness :
  ∃ exit,
    MinuitNumericFitter_apply Sample.numericMinuit (Sample.policy false)
      Sample.evaluator11 [1; 1]%float = Some exit
    ∧ getLinearParameters (evaluatorAfter exit) = [2%float]
    ∧ derivativesUntouched Sample.evaluator11 (evaluatorAfter exit).
Proof.
  assert (is_Some (MinuitNumericFitter_apply Sample.numericMinuit (Sample.policy false)
                     Sample.evaluator11 [1; 1]%float)) as [exit Hexit].
  { vm_compute. eexists. reflexivity. }
  exists exit. split; [exact Hexit|]. split.
  - vm_compute in Hexit. injection Hexit as <-. reflexivity.
  - exact (numeric_fitter_leaves_derivatives_alone _ _ _ _ _ Hexit).
Defined.

(** ** The gradient check of the analytic fitter *)

Lemma mapM_lookup_seq (l : Vector) n k :
  mapM (λ i, l !! i) (seq 0 n) = Some k → k = take n l ∧ n ≤ length l.
Proof.
  intros Hall%mapM_Some_1.
  pose proof (Forall2_length _ _ _ Hall) as Hlen. rewrite length_seq in Hlen.
  assert (∀ j, j < n → k !! j = l !! j ∧ j < length l) as Hsame.
  { intros j Hj.
    destruct (Forall2_lookup_l _ _ _ j j Hall) as (y & Hk & Hl);
      [by rewrite lookup_seq_lt|].
    split; [congruence|]. by eapply lookup_lt_Some. }
  split.
  - apply list_eq. intros j. destruct (decide (j < n)) as [Hj|Hj].
    + rewrite lookup_take_lt by done. by apply Hsame.
    + rewrite lookup_take_ge by lia. apply lookup_ge_None_2. lia.
  - destruct n as [|n]; [lia|]. destruct (Hsame n) as [_ Hlast]; lia.
Qed.

Lemma gradientReport_Some nParams (numericGrad analyticGrad : Vector) lines :
  length analyticGrad = nParams →
  gradientReport nParams numericGrad analyticGrad = Some lines →
  0 < nParams ∧ nParams ≤ length numericGrad
  ∧ lines = [("numeric gradient: "%string, take nParams numericGrad);
             ("analytic gradient: "%string, analyticGrad);
             ("difference: "%string,
              zip_with PrimFloat.div (take nParams numericGrad) analyticGrad)].
Proof.
  intros Hlen. unfold gradientReport.
  change (0 :: seq 1 (nParams - 1)) with (seq 0 (S (nParams - 1))).
  destruct (mapM (λ i, numericGrad !! i) _) as [numeric|] eqn:Hnumeric; bind_step;
    [|done].
  destruct (mapM (λ i, analyticGrad !! i) _) as [analytic|] eqn:Hanalytic; bind_step;
    [|done].
  apply mapM_lookup_seq in Hnumeric as [-> Hn].
  apply mapM_lookup_seq in Hanalytic as [-> Ha].
  intros [= <-].
  assert (0 < nParams) as Hpos by lia.
  replace (S (nParams - 1)) with nParams by lia.
  rewrite (take_ge analyticGrad) by lia. split_and!; [done|lia|done].
Qed.

(** X17. For a model without parameters the gradient check has no defined
    result, whatever the minimizer: element 0 of the gradients is read before
    the loop over the parameters, and the analytic gradient is empty. *)
Theorem gradient_check_without_parameters
    (minuit : Minuit2) (policy : Policy) (evaluator : ModelEvaluator) :
  getLinearParameterSize evaluator = 0 → getNonlinearParameterSize evaluator = 0 →
  MinuitAnalyticFitter_apply minuit
    (mkPolicy true (strategy policy) (iterationMax policy) (tolerance policy))
    evaluator [] = None.
Proof.
  intros Hl Hn. unfold MinuitAnalyticFitter_apply.
  cbn [checkGradient strategy iterationMax tolerance]. rewrite Hl, Hn.
  set (f := newChisqFunction evaluator).
  assert (_dirty f = true) as Hdirty by done.
  rewrite decide_False by (intros Hne; by apply Hne).
  destruct (commaInitialize _ _) as [initialParams|] eqn:Hparams; [|done].
  apply commaInitialize_Some in Hparams as [_ Hsize]. bind_step.
  destruct (computeValue initialParams f evaluator) as [[[fval f1] ev1]|] eqn:Hvalue;
    [|done].
  apply computeValue_keeps_flag in Hvalue as ->; [|done]. bind_step.
  destruct (runFcn _ f ev1) as [[[numericGrad f2] ev2]|] eqn:Hnumeric; [|done].
  bind_step.
  destruct (computeGradient initialParams f2 ev2) as [[[analyticGrad f3] ev3]|]
    eqn:Hgradient; [|done].
  bind_step.
  destruct (gradientReport _ _ _) as [lines|] eqn:Hreport; [|done].
  exfalso.
  assert (length analyticGrad = 0) as Hempty.
  { assert (_dirty f2 = true) as Hdirty2.
    { clear -Hnumeric Hdirty. revert ev1 Hnumeric.
      induction (Numerical2PGradientCalculator minuit initialParams []
                   (strategy policy) initialParams fval) as [r0|params k IH];
        intros ev1; simpl.
      - by intros [= _ <- _].
      - destruct (computeValue params f ev1) as [[[value f1] ev1']|] eqn:Hcall;
          bind_step; [|done].
        apply computeValue_keeps_flag in Hcall as ->; [|done]. apply IH. }
    destruct (computeGradient_keeps_flag _ _ _ _ _ _ Hdirty2 Hgradient) as [_ ->].
    exact Hsize. }
  apply gradientReport_Some in Hreport as [Hpos _]; [lia|exact Hempty].
Qed.

Lemma gradient_check_without_parameters_witness :
  MinuitAnalyticFitter_apply Sample.minuit (Sample.policy true) Sample.evaluator00 []
  = None
  ∧ is_Some (MinuitAnalyticFitter_apply Sample.minuit (Sample.policy false)
               Sample.evaluator00 []).
Proof.
  split.
  - apply (gradient_check_without_parameters Sample.minuit (Sample.policy true)
             Sample.evaluator00).
    + vm_compute. reflexivity.
    + vm_compute. reflexivity.
  - vm_compute. eexists. reflexivity.
Defined.

(** X18. When the analytic fitter runs its gradient check and returns a
    result, it has written three lines to [std::cerr], each with one number
    per parameter: the numerical gradient, the analytic gradient at the
    parameters the evaluator held at the call, taken against the evaluator's
    weighted data, and, under the label "difference", the quotient of the
    two, entry by entry. *)
Theorem gradient_check_report
    (minuit : Minuit2) (policy : Policy) (evaluator : ModelEvaluator)
    (initialErrors : Vector) (exit : ApplyExit minuit) :
  initialized evaluator →
  length initialErrors
  = getLinearParameterSize evaluator + getNonlinearParameterSize evaluator →
  MinuitAnalyticFitter_apply minuit
    (mkPolicy true (strategy policy) (iterationMax policy) (tolerance policy))
    evaluator initialErrors = Some exit →
  ∃ numeric analytic,
    cerr exit = [("numeric gradient: "%string, numeric);
                 ("analytic gradient: "%string, analytic);
                 ("difference: "%string, zip_with PrimFloat.div numeric analytic)]
    ∧ length numeric = length initialErrors
    ∧ length analytic = length initialErrors
    ∧ 0 < length initialErrors
    ∧ gradientAt (_model evaluator) (_projectionList evaluator) (_sigma evaluator)
        (getWeightedData evaluator) = Some analytic.
Proof.
  intros Hinit Herrors. unfold MinuitAnalyticFitter_apply.
  cbn [checkGradient strategy iterationMax tolerance].
  set (f := newChisqFunction evaluator).
  assert (_dirty f = true) as Hdirty by done.
  rewrite decide_False by (intros Hne; by apply Hne).
  destruct (commaInitialize _ _) as [initialParams|] eqn:Hparams; [|done].
  apply commaInitialize_Some in Hparams as [Hparams Hsize]. bind_step.
  destruct (computeValue initialParams f evaluator) as [[[fval f1] ev1]|] eqn:Hvalue;
    [|done].
  apply computeValue_keeps_adapter in Hvalue as (-> & -> & _); [|done|done].
  bind_step.
  assert (initialized (evaluatorAfterValue initialParams evaluator)) as Hinit1.
  { apply initialized_afterValue; [done|]. rewrite Hsize. done. }
  destruct (runFcn _ f _) as [[[numericGrad f2] ev2]|] eqn:Hnumeric; [|done].
  apply runFcn_invariant in Hnumeric as (-> & Hinit2 & Hsetup2); [|done|done].
  bind_step.
  pose proof (sameSetup_trans _ _ _ (sameSetup_afterValue initialParams evaluator) Hsetup2)
    as Hsetup.
  assert (pushedModel initialParams (_model ev2) = _model evaluator) as Hmodel.
  { rewrite (pushedModel_sameSetup initialParams evaluator ev2) by done.
    rewrite Hparams. apply pushedModel_own, Hinit. }
  destruct Hsetup as (Hp & Hs & Hl & Hn).
  rewrite computeGradient_dirty by done.
  unfold getLinearParameterSize, getNonlinearParameterSize in *.
  rewrite Hl, Hn, Hmodel, Hp, Hs.
  destruct (decide _) as [_|]; [|done].
  destruct (gradientAt _ _ _ _) as [analyticGrad|] eqn:Hanalytic; [|done]. bind_step.
  assert (length analyticGrad = length initialErrors) as Hlen.
  { unfold gradientAt in Hanalytic.
    destruct (vectorDifference _ _) as [residual|]; [|done]. cbn [mbind option_bind] in Hanalytic.
    destruct (nonlinearDerivativeAt _ _ _) as [npd|] eqn:Hnpd; [|done].
    cbn [mbind option_bind] in Hanalytic. injection Hanalytic as <-.
    rewrite length_app, !length_negTransposeTimes.
    rewrite (length_nonlinearDerivativeAt _ _ _ _ Hnpd).
    unfold linearDerivativeAt. rewrite length_fmap, length_rawLinearDerivative. lia. }
  rewrite <- Herrors.
  destruct (gradientReport _ _ _) as [lines|] eqn:Hreport; [|done]. bind_step.
  apply gradientReport_Some in Hreport as (Hpos & Hnum & ->); [|done].
  destruct (runGradientFcn _ f _) as [[[min f4] ev4]|]; [|done]. bind_step.
  intros [= <-]. cbn [cerr].
  exists (take (length initialErrors) numericGrad), analyticGrad.
  split; [done|]. split; [by rewrite length_take_le|]. done.
Qed.

Lemma gradient_check_report_witness :
  ∃ exit numeric analytic,
    MinuitAnalyticFitter_apply Sample.minuit (Sample.policy true) Sample.evaluator11
      [1; 1]%float = Some exit
    ∧ cerr exit = [("numeric gradient: "%string, numeric);
                   ("analytic gradient: "%string, analytic);
                   ("difference: "%string, zip_with PrimFloat.div numeric analytic)]
    ∧ length analytic = 2.
Proof.
  assert (initialized Sample.evaluator11) as Hinit.
  { apply setExposureList_initialized. vm_compute. split; reflexivity. }
  assert (is_Some (MinuitAnalyticFitter_apply Sample.minuit (Sample.policy true)
                     Sample.evaluator11 [1; 1]%float)) as [exit Hexit].
  { vm_compute. eexists. reflexivity. }
  destruct (gradient_check_report Sample.minuit (Sample.policy true) Sample.evaluator11
              [1; 1]%float exit Hinit eq_refl Hexit)
    as (numeric & analytic & Hlines & _ & Hlen & _).
  exists exit, numeric, analytic. split; [exact Hexit|]. split; [exact Hlines|exact Hlen].
Defined.

(** ** The model a fit returns *)

Lemma modelAfterCalls_cons params calls ev ev' :
  linearParameterSize (_model ev') = linearParameterSize (_model ev) →
  nonlinearParameterSize (_model ev') = nonlinearParameterSize (_model ev) →
  _model ev' = pushedModel params (_model ev) →
  modelAfterCalls calls (_model ev') = modelAfterCalls (params :: calls) (_model ev).
Proof.
  intros Hl Hn Hmodel. unfold modelAfterCalls.
  destruct calls as [|q calls]; [done|].
  rewrite last_cons_cons. destruct (last (q :: calls)) as [p|] eqn:Hlast.
  - cbn [from_option]. unfold pushedModel. rewrite Hl, Hn. done.
  - by apply last_None in Hlast.
Qed.

Lemma runFcn_model {R} (c : FcnClient R) f ev r f' ev' :
  initialized ev → _dirty f = true →
  runFcn c f ev = Some (r, f', ev') →
  _model ev' = modelAfterCalls (fcnCalls c f ev) (_model ev).
Proof.
  revert ev. induction c as [r0|params k IH]; intros ev Hinit Hdirty; simpl.
  - intros [= _ _ <-]. done.
  - destruct (computeValue params f ev) as [[[value f1] ev1]|] eqn:Hcall; [|done].
    bind_step.
    apply computeValue_keeps_adapter in Hcall as (-> & -> & Hlen); [|done|done].
    intros Hrun. rewrite (IH _ _ (initialized_afterValue _ _ Hinit Hlen) Hdirty Hrun).
    by apply modelAfterCalls_cons.
Qed.

Lemma runGradientFcn_model {R} (c : GradientFcnClient R) f ev r f' ev' :
  initialized ev → _dirty f = true →
  runGradientFcn c f ev = Some (r, f', ev') →
  _model ev' = modelAfterCalls (gradientFcnCalls c f ev) (_model ev).
Proof.
  revert ev. induction c as [r0|params k IH|params k IH]; intros ev Hinit Hdirty; simpl.
  - intros [= _ _ <-]. done.
  - destruct (computeValue params f ev) as [[[value f1] ev1]|] eqn:Hcall; [|done].
    bind_step.
    apply computeValue_keeps_adapter in Hcall as (-> & -> & Hlen); [|done|done].
    intros Hrun. rewrite (IH _ _ (initialized_afterValue _ _ Hinit Hlen) Hdirty Hrun).
    by apply modelAfterCalls_cons.
  - destruct (computeGradient params f ev) as [[[gradient f1] ev1]|] eqn:Hcall; [|done].
    bind_step.
    apply computeGradient_keeps_adapter in Hcall as (-> & -> & Hlen); [|done|done].
    intros Hrun.
    assert (initialized (evaluatorAfterGradient params ev)) as Hinit1.
    { apply initialized_afterGradient; [done|lia]. }
    rewrite (IH _ _ Hinit1 Hdirty Hrun).
    by apply modelAfterCalls_cons.
Qed.

(** X19. The model in a fit's result holds the parameters of the last call
    the minimizer made of the objective or of its gradient, whatever point
    the minimum itself reports, and the evaluator's own parameters when the
    minimizer made no call. This holds for the numeric fitter and for the
    analytic fitter without the gradient check. *)
Theorem fit_result_holds_last_evaluated_parameters
    (minuit : Minuit2) (policy : Policy) (evaluator : ModelEvaluator)
    (initialErrors : Vector) :
  let f := newChisqFunction evaluator in
  let initialParams := getLinearParameters evaluator ++ getNonlinearParameters evaluator in
  initialized evaluator →
  length initialErrors
  = getLinearParameterSize evaluator + getNonlinearParameterSize evaluator →
  (∀ exit,
     MinuitNumericFitter_apply minuit policy evaluator initialErrors = Some exit →
     fittedModel exit
     = Some (modelAfterCalls
              (fcnCalls (MnMigrad_fcn minuit initialParams initialErrors (strategy policy)
                           (iterationMax policy) (tolerance policy)) f evaluator)
              (_model evaluator)))
  ∧ (∀ exit,
       MinuitAnalyticFitter_apply minuit
         (mkPolicy false (strategy policy) (iterationMax policy) (tolerance policy))
         evaluator initialErrors = Some exit →
       fittedModel exit
       = Some (modelAfterCalls
                (gradientFcnCalls
                   (MnMigrad_gradient minuit false initialParams initialErrors
                      (strategy policy) (iterationMax policy) (tolerance policy))
                   f evaluator)
                (_model evaluator))).
Proof.
  intros f initialParams Hinit Herrors.
  assert (_dirty f = true) as Hdirty by done.
  split; intros exit.
  - unfold MinuitNumericFitter_apply. fold f.
    rewrite decide_False by (intros Hne; by apply Hne).
    destruct (commaInitialize _ _) as [ip|] eqn:Hparams; [|done].
    apply commaInitialize_Some in Hparams as [-> _]. fold initialParams. bind_step.
    destruct (runFcn _ f _) as [[[min f'] ev']|] eqn:Hrun; [|done]. bind_step.
    intros [= <-]. unfold fittedModel. cbn [outcome model]. f_equal.
    by eapply runFcn_model.
  - unfold MinuitAnalyticFitter_apply. fold f.
    cbn [checkGradient strategy iterationMax tolerance].
    rewrite decide_False by (intros Hne; by apply Hne).
    destruct (commaInitialize _ _) as [ip|] eqn:Hparams; [|done].
    apply commaInitialize_Some in Hparams as [-> _]. fold initialParams. bind_step.
    destruct (runGradientFcn _ f _) as [[[min f'] ev']|] eqn:Hrun; [|done]. bind_step.
    intros [= <-]. unfold fittedModel. cbn [outcome model]. f_equal.
    by eapply runGradientFcn_model.
Qed.

Lemma fit_result_holds_last_evaluated_parameters_witness :
  ∃ exit,
    MinuitNumericFitter_apply Sample.numericMinuit (Sample.policy false)
      Sample.evaluator11 [1; 1]%float = Some exit
    ∧ fittedModel exit = Some (mkModel 1 1 [2%float] [1.5%float]).
Proof.
  assert (initialized Sample.evaluator11) as Hinit.
  { apply setExposureList_initialized. vm_compute. split; reflexivity. }
  assert (is_Some (MinuitNumericFitter_apply Sample.numericMinuit (Sample.policy false)
                     Sample.evaluator11 [1; 1]%float)) as [exit Hexit].
  { vm_compute. eexists. reflexivity. }
  exists exit. split; [exact Hexit|].
  rewrite (proj1 (fit_result_holds_last_evaluated_parameters Sample.numericMinuit
                    (Sample.policy false) Sample.evaluator11 [1; 1]%float
                    Hinit eq_refl) exit Hexit).
  vm_compute. reflexivity.
Defined.
